(** * Electron Fiddle: template cache and command-line dispatcher

    A shallow embedding of [src/renderer/content.ts] (the per-branch template
    cache) and of the command-line module ([open], [test], [bisect]), with the
    properties the specification states about them.  The bisect controller,
    whose source is not part of [src/], is modelled from section 4.2 of the
    specification.

    The file has two parts: the definitions (the string helpers, the model of
    the [semver] package, the two modules of the program, the controller),
    then the facts proved about them, module by module.

    Conventions.
    - A JavaScript string is modelled by the [string] of its UTF-8 bytes.
      The patterns the modelled code matches character by character
      (version numbers, gist ids, URLs) are ASCII-only, for which bytes and
      UTF-16 code units coincide; where the code units matter beyond ASCII
      ([trim], [length]) the bytes are decoded.
    - [undefined] / [null] are modelled with [option].
    - Code that may throw returns a [Result]; stateful code threads an
      explicit state. *)

From stdpp Require Import gmap strings list pretty.
From Equations Require Import Equations.
From Stdlib Require Import Ascii ZArith NArith Lia Sorted.
From Stdlib Require String.

(** ** Results of fallible code *)

Inductive Result (A : Type) : Type :=
| Ok (a : A)
| Throw (err : string).
Arguments Ok {A} a.
Arguments Throw {A} err.

Definition isOk {A} (r : Result A) : bool :=
  match r with Ok _ => true | Throw _ => false end.

(** ** String helpers (the JavaScript [String.prototype] methods used) *)

Module Str.

Definition ascii_between (lo hi c : ascii) : bool :=
  ((nat_of_ascii lo <=? nat_of_ascii c)%nat && (nat_of_ascii c <=? nat_of_ascii hi)%nat)%bool.

(** [\d], i.e. [[0-9]] *)
Definition is_digit (c : ascii) : bool := ascii_between "0"%char "9"%char c.

(** [[a-zA-Z]] *)
Definition is_letter (c : ascii) : bool :=
  (ascii_between "a"%char "z"%char c || ascii_between "A"%char "Z"%char c)%bool.

(** [[0-9A-Fa-f]] *)
Definition is_hex (c : ascii) : bool :=
  (is_digit c || ascii_between "A"%char "F"%char c || ascii_between "a"%char "f"%char c)%bool.

Fixpoint all (p : ascii -> bool) (s : string) : bool :=
  match s with
  | EmptyString => true
  | String c s' => (p c && all p s')%bool
  end.

Fixpoint any (p : ascii -> bool) (s : string) : bool :=
  match s with
  | EmptyString => false
  | String c s' => (p c || any p s')%bool
  end.

(** [s.startsWith(p)] *)
Fixpoint startsWith (p s : string) : bool :=
  match p, s with
  | EmptyString, _ => true
  | String a p', String b s' => (Ascii.eqb a b && startsWith p' s')%bool
  | String _ _, EmptyString => false
  end.

(** last character of [s], if any *)
Fixpoint last (s : string) : option ascii :=
  match s with
  | EmptyString => None
  | String c EmptyString => Some c
  | String _ s' => last s'
  end.

(** [s.endsWith(c)] for a one-character [c] *)
Definition endsWithChar (c : ascii) (s : string) : bool :=
  match last s with
  | Some d => Ascii.eqb c d
  | None => false
  end.

(** [s.slice(0, -1)]: everything but the last character *)
Fixpoint dropLast (s : string) : string :=
  match s with
  | EmptyString => EmptyString
  | String _ EmptyString => EmptyString
  | String c s' => String c (dropLast s')
  end.

(** [s.split(sep)] for a one-character separator: never empty *)
Fixpoint split (sep : ascii) (s : string) : list string :=
  match s with
  | EmptyString => [EmptyString]
  | String c s' =>
      if Ascii.eqb c sep then EmptyString :: split sep s'
      else match split sep s' with
           | [] => [String c EmptyString]
           | w :: ws => String c w :: ws
           end
  end.

(** [arr.pop()] as an expression: the last element, [undefined] if none *)
Definition pop {A} (l : list A) : option A := List.last (List.map Some l) None.

(** Cut [s] at the first occurrence of [sep]. *)
Fixpoint cut (sep : ascii) (s : string) : string * option string :=
  match s with
  | EmptyString => (EmptyString, None)
  | String c s' =>
      if Ascii.eqb c sep then (EmptyString, Some s')
      else let '(a, b) := cut sep s' in (String c a, b)
  end.

(** ASCII white space removed by [trim] *)
Definition is_space (c : ascii) : bool :=
  let n := nat_of_ascii c in
  ((n =? 32)%nat || ((9 <=? n)%nat && (n <=? 13)%nat))%bool.

(** The white space and line terminators of two bytes in UTF-8 that [trim]
    removes: U+00A0. *)
Definition is_space2 (c1 c2 : ascii) : bool :=
  ((nat_of_ascii c1 =? 194)%nat && (nat_of_ascii c2 =? 160)%nat)%bool.

(** Those of three bytes: U+1680, U+2000 to U+200A, U+2028, U+2029, U+202F,
    U+205F, U+3000 and U+FEFF. *)
Definition is_space3 (c1 c2 c3 : ascii) : bool :=
  let n1 := nat_of_ascii c1 in
  let n2 := nat_of_ascii c2 in
  let n3 := nat_of_ascii c3 in
  (((n1 =? 225) && (n2 =? 154) && (n3 =? 128))
   || ((n1 =? 226) && (n2 =? 128)
       && (((128 <=? n3) && (n3 <=? 138)) || (n3 =? 168) || (n3 =? 169) || (n3 =? 175)))
   || ((n1 =? 226) && (n2 =? 129) && (n3 =? 159))
   || ((n1 =? 227) && (n2 =? 128) && (n3 =? 128))
   || ((n1 =? 239) && (n2 =? 187) && (n3 =? 191)))%nat%bool.

(** [s.trimStart()]: the leading white space and line terminators go, one
    code point at a time. *)
Fixpoint trimStart (s : string) : string :=
  match s with
  | EmptyString => EmptyString
  | String c1 s1 =>
      if is_space c1 then trimStart s1
      else
        match s1 with
        | String c2 s2 =>
            if is_space2 c1 c2 then trimStart s2
            else
              match s2 with
              | String c3 s3 => if is_space3 c1 c2 c3 then trimStart s3 else s
              | EmptyString => s
              end
        | EmptyString => s
        end
  end.

(** [s] is white space and line terminators only *)
Definition all_space (s : string) : bool :=
  match trimStart s with
  | EmptyString => true
  | String _ _ => false
  end.

(** [s.trimEnd()]: everything from the point where only white space is
    left. *)
Fixpoint trimEnd (s : string) : string :=
  match s with
  | EmptyString => EmptyString
  | String c s' => if all_space s then EmptyString else String c (trimEnd s')
  end.

(** [s.length]: the number of UTF-16 code units of the text whose UTF-8
    bytes are [s] (one per code point, two for a code point of four
    bytes). *)
Fixpoint utf16_length (s : string) : nat :=
  match s with
  | EmptyString => 0
  | String c s' =>
      let n := nat_of_ascii c in
      (if (n <? 128)%nat then 1
       else if (n <? 192)%nat then 0
       else if (n <? 240)%nat then 1
       else 2) + utf16_length s'
  end.

Definition trim (s : string) : string := trimEnd (trimStart s).

(** the first [n] characters *)
Fixpoint take (n : nat) (s : string) : string :=
  match n, s with
  | O, _ => EmptyString
  | S _, EmptyString => EmptyString
  | S n', String c s' => String c (take n' s')
  end.

(** value of a string of decimal digits *)
Definition digit_value (c : ascii) : N := N.of_nat (nat_of_ascii c - 48).

Fixpoint digits_value_from (acc : N) (s : string) : N :=
  match s with
  | EmptyString => acc
  | String c s' => digits_value_from (acc * 10 + digit_value c)%N s'
  end.

Definition digits_value (s : string) : N := digits_value_from 0%N s.

End Str.

(** ** The [semver] package (version 7), strict mode

    The functions of the npm package [semver] that the program calls:
    [semver.parse] and [semver.compare].  [parse] returns [null] instead of
    throwing; [compare] constructs two [SemVer] objects and throws on an
    invalid version. *)

Module semver.

Definition MAX_LENGTH : nat := 256.
Definition MAX_SAFE_INTEGER : N := 9007199254740991.

(** A prerelease identifier is kept as a number when it is all digits and
    below [MAX_SAFE_INTEGER], as a string otherwise. *)
Inductive Identifier : Type :=
| INum (n : N)
| IStr (s : string).

Record SemVer : Type := mkSemVer {
  raw : string;
  major : N;
  minor : N;
  patch : N;
  prerelease : list Identifier;
  build : list string
}.

(** [[0-9A-Za-z-]] *)
Definition is_idchar (c : ascii) : bool :=
  (Str.is_digit c || Str.is_letter c || Ascii.eqb c "-"%char)%bool.

Definition nonempty (s : string) : bool :=
  match s with EmptyString => false | _ => true end.

(** [/^[0-9]+$/] *)
Definition all_digits (s : string) : bool := (nonempty s && Str.all Str.is_digit s)%bool.

(** NUMERICIDENTIFIER: [0|[1-9]\d*] *)
Definition is_numeric_identifier (s : string) : bool :=
  match s with
  | EmptyString => false
  | String "0"%char EmptyString => true
  | String c s' => (Str.is_digit c && negb (Ascii.eqb c "0"%char) && Str.all Str.is_digit s')%bool
  end.

(** NONNUMERICIDENTIFIER: [\d*[a-zA-Z-][a-zA-Z0-9-]*] *)
Definition is_nonnumeric_identifier (s : string) : bool :=
  (Str.all is_idchar s && Str.any (fun c => negb (Str.is_digit c)) s)%bool.

(** PRERELEASEIDENTIFIER *)
Definition is_prerelease_identifier (s : string) : bool :=
  (is_numeric_identifier s || is_nonnumeric_identifier s)%bool.

(** BUILDIDENTIFIER: [[0-9A-Za-z-]+] *)
Definition is_build_identifier (s : string) : bool :=
  (nonempty s && Str.all is_idchar s)%bool.

(** The groups of the FULL regular expression
    [^v?M.m.p(?:-PRERELEASE)?(?:\+BUILD)?$]: the three numeric identifiers,
    the prerelease and the build text. *)
Definition match_full (s : string)
  : option (string * string * string * option string * option string) :=
  let s := match s with String "v"%char s' => s' | _ => s end in
  let '(main_pre, bld) := Str.cut "+"%char s in
  let '(main, pre) := Str.cut "-"%char main_pre in
  match Str.split "."%char main with
  | [a; b; c] =>
      if (is_numeric_identifier a && is_numeric_identifier b && is_numeric_identifier c
          && match pre with
             | Some p => forallb is_prerelease_identifier (Str.split "."%char p)
             | None => true
             end
          && match bld with
             | Some p => forallb is_build_identifier (Str.split "."%char p)
             | None => true
             end)%bool
      then Some (a, b, c, pre, bld)
      else None
  | _ => None
  end.

(** How the constructor stores one prerelease identifier. *)
Definition prerelease_item (id : string) : Identifier :=
  if all_digits id then
    let num := Str.digits_value id in
    if (num <? MAX_SAFE_INTEGER)%N then INum num else IStr id
  else IStr id.

(** [new SemVer(version)]: throws (here [None]) on an invalid version. *)
Definition SemVer_new (version : string) : option SemVer :=
  if (MAX_LENGTH <? Str.utf16_length version)%nat then None
  else
    match match_full (Str.trim version) with
    | None => None
    | Some (a, b, c, pre, bld) =>
        let ma := Str.digits_value a in
        let mi := Str.digits_value b in
        let pa := Str.digits_value c in
        if (MAX_SAFE_INTEGER <? ma)%N then None
        else if (MAX_SAFE_INTEGER <? mi)%N then None
        else if (MAX_SAFE_INTEGER <? pa)%N then None
        else Some {| raw := version; major := ma; minor := mi; patch := pa;
                     prerelease := match pre with
                                   | Some p => List.map prerelease_item (Str.split "."%char p)
                                   | None => []
                                   end;
                     build := match bld with
                              | Some p => Str.split "."%char p
                              | None => []
                              end |}
    end.

(** [semver.parse(version)]: [null] when [version] is not a string, is too
    long, does not match the FULL expression as it stands (untrimmed), or
    is refused by the constructor. *)
Definition parse (version : option string) : option SemVer :=
  match version with
  | None => None
  | Some v =>
      if (MAX_LENGTH <? Str.utf16_length v)%nat then None
      else match match_full v with
           | None => None
           | Some _ => SemVer_new v
           end
  end.

(** Conversion of a string of digits to a JavaScript number: the nearest
    double, ties to even.  Exact below 2^53. *)
Definition to_double (n : N) : N :=
  let top := N.log2 n in
  if (top <? 53)%N then n
  else
    let sh := (top - 52)%N in
    let q := N.shiftr n sh in
    let r := N.land n (N.ones sh) in
    let half := N.shiftl 1 (sh - 1) in
    let q' := if ((half <? r)%N || ((r =? half)%N && N.odd q))%bool then (q + 1)%N else q in
    N.shiftl q' sh.

(** The numeric reading [compareIdentifiers] gives an identifier, when
    [/^[0-9]+$/] accepts it. *)
Definition numeric_of (a : Identifier) : option N :=
  match a with
  | INum n => Some n
  | IStr s => if all_digits s then Some (to_double (Str.digits_value s)) else None
  end.

Definition Z_of_comparison (c : comparison) : Z :=
  match c with Lt => (-1)%Z | Eq => 0%Z | Gt => 1%Z end.

(** [compareIdentifiers(a, b)] *)
Definition compareIdentifiers (a b : Identifier) : Z :=
  match numeric_of a, numeric_of b with
  | Some x, Some y => Z_of_comparison (N.compare x y)
  | Some _, None => (-1)%Z
  | None, Some _ => 1%Z
  | None, None =>
      match a, b with
      | IStr s, IStr t => Z_of_comparison (String.compare s t)
      | _, _ => 0%Z
      end
  end.

(** JavaScript [x || y] on numbers *)
Definition or_else (x y : Z) : Z := if (x =? 0)%Z then y else x.

Definition compareMain (a b : SemVer) : Z :=
  or_else (compareIdentifiers (INum (major a)) (INum (major b)))
    (or_else (compareIdentifiers (INum (minor a)) (INum (minor b)))
       (compareIdentifiers (INum (patch a)) (INum (patch b)))).

(** [a === b] on stored identifiers *)
Definition ident_strict_eq (a b : Identifier) : bool :=
  match a, b with
  | INum x, INum y => (x =? y)%N
  | IStr s, IStr t => String.eqb s t
  | _, _ => false
  end.

(** the [do ... while (++i)] loop of [comparePre] *)
Fixpoint comparePre_loop (p q : list Identifier) : Z :=
  match p, q with
  | [], [] => 0%Z
  | _ :: _, [] => 1%Z
  | [], _ :: _ => (-1)%Z
  | a :: p', b :: q' =>
      if ident_strict_eq a b then comparePre_loop p' q'
      else compareIdentifiers a b
  end.

Definition comparePre (a b : SemVer) : Z :=
  match prerelease a, prerelease b with
  | _ :: _, [] => (-1)%Z
  | [], _ :: _ => 1%Z
  | [], [] => 0%Z
  | p, q => comparePre_loop p q
  end.

(** [a.compare(b)] on [SemVer] objects.  The source first returns 0 when
    the two formatted versions are the same string, which is when
    [compareMain] and [comparePre] both give 0. *)
Definition compare_semver (a b : SemVer) : Z :=
  or_else (compareMain a b) (comparePre a b).

(** [semver.compare(a, b)] on strings: [None] when a constructor throws. *)
Definition compare (a b : string) : option Z :=
  match SemVer_new a, SemVer_new b with
  | Some x, Some y => Some (compare_semver x y)
  | _, _ => None
  end.

End semver.


(** ** [src/renderer/content.ts]: the template cache *)

Module Content.

Import semver.

(** [VersionSource] and the entries of [getElectronVersions()]
    (declared in [../interfaces]). *)
Inductive VersionSource : Type := remote | local.

Record ElectronVersion : Type := {
  version : string;
  source : VersionSource
}.

Definition is_remote (v : ElectronVersion) : bool :=
  match source v with remote => true | local => false end.

(** [EditorValues]: file contents by editor id. *)
Abbreviation EditorId := string (only parsing).
Abbreviation EditorValues := (gmap string string) (only parsing).

(** The response of [fetch]. *)
Record Response : Type := {
  ok : bool;
  status : nat;
  statusText : string;
  arrayBuffer : Result string
}.

(** [window.ElectronFiddle.app] *)
Record App : Type := {
  getEditorValues : Result EditorValues
}.

Record ElectronFiddle : Type := {
  app : option App
}.

(** What the collaborators outside this module answer when called: the
    version catalog, the dynamic import, the file system, the network,
    the archive library, [readFiddle] and the [window] global. *)
Record World : Type := {
  getElectronVersions : list ElectronVersion;
  fancyImport : string -> Result unit;
  existsSync : string -> bool;
  fetch : string -> Result Response;
  ensureDir : string -> Result unit;
  decompress : string -> string -> Result unit;
  readFiddle : string -> Result EditorValues;
  window_ElectronFiddle : option ElectronFiddle
}.

(** Observable steps: the [console.log] lines and the calls made to the
    collaborators.  [acquire] marks the evaluation of the expression that
    starts loading a template in [getTemplate] ([network] tells which arm
    of the conditional ran). *)
Inductive Event : Type :=
| log_loading (branch : string)
| log_downloading (branch : string)
| log_unzipping (branch : string)
| log_finished (branch : string)
| log_failed (branch folder err : string)
| acquire (branch : string) (network : bool)
| call_prepareTemplate (branch : string)
| call_import (name : string)
| call_existsSync (folder : string)
| call_fetch (url : string)
| call_ensureDir (dir : string)
| call_decompress (dir : string)
| call_readFiddle (folder : string)
| call_getEditorValues
| call_getTemplate (version : option string).

#[global] Instance Event_eq_dec : EqDecision Event.
Proof. solve_decision. Defined.

(** *** Effects: a trace of events and exceptions *)

Definition Eff (A : Type) : Type := list Event -> Result A * list Event.

Definition ret {A} (a : A) : Eff A := fun tr => (Ok a, tr).

Definition bind {A B} (m : Eff A) (k : A -> Eff B) : Eff B :=
  fun tr =>
    match m tr with
    | (Ok a, tr') => k a tr'
    | (Throw e, tr') => (Throw e, tr')
    end.

Definition throw {A} (err : string) : Eff A := fun tr => (Throw err, tr).

Definition emit (e : Event) : Eff unit := fun tr => (Ok tt, tr ++ [e]).

(** a call to a collaborator: recorded, then its answer *)
Definition call {A} (e : Event) (answer : Result A) : Eff A :=
  fun tr => (answer, tr ++ [e]).

Definition lift {A} (answer : Result A) : Eff A := fun tr => (answer, tr).

(** [try { body } catch (err) { handler }] *)
Definition try_catch {A} (body : Eff A) (handler : string -> Eff A) : Eff A :=
  fun tr =>
    match body tr with
    | (Ok a, tr') => (Ok a, tr')
    | (Throw e, tr') => handler e tr'
    end.

Notation "'let!' x ':=' m 'in' k" := (bind m (fun x => k))
  (at level 10, x name, m at level 100, k at level 200, only parsing).
Notation "'do!' m 'in' k" := (bind m (fun _ => k))
  (at level 10, m at level 100, k at level 200, only parsing).

Section WithPaths.

(** [path.join(USER_DATA_PATH, 'Templates')] and
    [path.resolve(__dirname, '../../static/electron-quick-start')] are
    computed once when the module loads; [path.join] is Node's. *)
Variable TEMPLATES_DIR : string.
Variable STATIC_TEMPLATE_DIR : string.
Variable path_join : string -> string -> string.

Definition template_url (branch : string) : string :=
  "https://github.com/electron/electron-quick-start/archive/" +:+ branch +:+ ".zip".

Definition template_folder (branch : string) : string :=
  path_join TEMPLATES_DIR ("electron-quick-start-" +:+ branch).

Definition prepareTemplate (w : World) (branch : string) : Eff string :=
  do! emit (call_prepareTemplate branch) in
  let folder := template_folder branch in
  try_catch
    (do! call (call_import "fs-extra") (fancyImport w "fs-extra") in
     let! present := call (call_existsSync folder) (Ok (existsSync w folder)) in
     if negb present then
       do! emit (log_downloading branch) in
       let url := template_url branch in
       let! response := call (call_fetch url) (fetch w url) in
       do! (if negb (ok response)
            then throw (url +:+ " " +:+ pretty (status response) +:+ " "
                          +:+ statusText response)
            else ret tt) in
       let! buffer := lift (arrayBuffer response) in
       do! call (call_ensureDir TEMPLATES_DIR) (ensureDir w TEMPLATES_DIR) in
       do! emit (log_unzipping branch) in
       do! call (call_decompress TEMPLATES_DIR) (decompress w buffer TEMPLATES_DIR) in
       do! emit (log_finished branch) in
       ret folder
     else ret folder)
    (fun err =>
       let folder := STATIC_TEMPLATE_DIR in
       do! emit (log_failed branch folder err) in
       ret folder).

(** *** [isReleasedMajor] *)

(** [.filter((version) => !!version)] on the parsed versions *)
Definition non_null {A} (l : list (option A)) : list A :=
  List.flat_map (fun o => match o with Some a => [a] | None => [] end) l.

(** [Array.prototype.sort] with the comparator [semver.compare]: a stable
    sort, here by insertion. *)
Fixpoint sort_insert (x : SemVer) (l : list SemVer) : list SemVer :=
  match l with
  | [] => [x]
  | y :: l' =>
      if (compare_semver x y <=? 0)%Z then x :: y :: l'
      else y :: sort_insert x l'
  end.

Fixpoint sort (l : list SemVer) : list SemVer :=
  match l with
  | [] => []
  | x :: l' => sort_insert x (sort l')
  end.

Definition remote_releases (w : World) : list SemVer :=
  non_null
    (List.map (fun v => parse (Some (version v)))
       (List.filter is_remote (getElectronVersions w))).

Definition newestRelease (w : World) : option SemVer :=
  Str.pop (sort (remote_releases w)).

(** The truthiness of [parsed && newestRelease &&
    parsed.major <= newestRelease.major]. *)
Definition isReleasedMajor (w : World) (v : option string) : bool :=
  match parse v, newestRelease w with
  | Some parsed, Some newest => (major parsed <=? major newest)%N
  | _, _ => false
  end.

(** *** The cache *)

(** A promise of a template: [pid] is the identity of the object,
    [settled] what it settles to. *)
Record Promise : Type := {
  pid : nat;
  settled : Result EditorValues
}.

Record State : Type := {
  templateCache : gmap string Promise;
  nextPid : nat;
  trace : list Event
}.

Definition initial : State :=
  {| templateCache := ∅; nextPid := 0; trace := [] |}.

(** [parsed?.major ? `${parsed.major}-x-y` : 'master'] *)
Definition branchOf (v : option string) : string :=
  match parse v with
  | Some parsed =>
      if (major parsed =? 0)%N then "master"
      else pretty (major parsed) +:+ "-x-y"
  | None => "master"
  end.

(** [readFiddle(folder)], a call to the collaborator *)
Definition call_to_readFiddle (w : World) (folder : string) : Eff EditorValues :=
  call (call_readFiddle folder) (readFiddle w folder).

(** [getTemplate] has no [await]: one call runs to its [return] without
    interleaving.  The promise it returns settles as [pending] does, so
    the model returns [pending] itself.  The asynchronous work started
    for a new entry is recorded at the call, with the outcome the world
    gives it. *)
Definition getTemplate (w : World) (v : option string) (st : State) : Promise * State :=
  let branch := branchOf v in
  let tr := trace st ++ [call_getTemplate v] in
  match templateCache st !! branch with
  | Some pending =>
      (pending, {| templateCache := templateCache st; nextPid := nextPid st; trace := tr |})
  | None =>
      let work :=
        do! emit (log_loading branch) in
        if isReleasedMajor w v
        then do! emit (acquire branch true) in
             let! folder := prepareTemplate w branch in
             call_to_readFiddle w folder
        else do! emit (acquire branch false) in
             call_to_readFiddle w STATIC_TEMPLATE_DIR in
      let '(outcome, tr') := work tr in
      let pending := {| pid := nextPid st; settled := outcome |} in
      (pending,
       {| templateCache := <[branch := pending]> (templateCache st);
          nextPid := S (nextPid st);
          trace := tr' |})
  end.

(** [getContent(name, version)]: [(await getTemplate(version))[name]] *)
Definition getContent (w : World) (name : EditorId) (v : option string) (st : State)
  : Result (option string) * State :=
  let '(p, st') := getTemplate w v st in
  match settled p with
  | Ok values => (Ok (values !! name), st')
  | Throw e => (Throw e, st')
  end.

(** [isContentUnchanged(name)] *)
Definition isContentUnchanged (w : World) (name : EditorId) (st : State)
  : Result bool * State :=
  match window_ElectronFiddle w with
  | None => (Ok false, st)
  | Some fiddle =>
      match app fiddle with
      | None => (Ok false, st)
      | Some a =>
          let st1 := {| templateCache := templateCache st; nextPid := nextPid st;
                        trace := trace st ++ [call_getEditorValues] |} in
          match getEditorValues a with
          | Throw e => (Throw e, st1)
          | Ok values =>
              match getContent w name None st1 with
              | (Ok content, st2) => (Ok (bool_decide (values !! name = content)), st2)
              | (Throw e, st2) => (Throw e, st2)
              end
          end
      end
  end.

(** A run of the process: the [getTemplate] calls in the order they
    execute, each with the world it meets. *)
Fixpoint run (calls : list (World * option string)) (st : State) : list Promise * State :=
  match calls with
  | [] => ([], st)
  | (w, v) :: rest =>
      let '(p, st1) := getTemplate w v st in
      let '(ps, st2) := run rest st1 in
      (p :: ps, st2)
  end.

(** *** Vocabulary of the properties *)

(** the events that start loading a template for [branch] *)
Definition is_acquire (branch : string) (e : Event) : bool :=
  match e with
  | acquire b _ => bool_decide (b = branch)
  | _ => false
  end.

(** how many times loading a template for [branch] was started *)
Definition acquisitions (branch : string) (tr : list Event) : nat :=
  length (List.filter (is_acquire branch) tr).

(** the events between two states *)
Definition new_events (st st' : State) : list Event :=
  drop (length (trace st)) (trace st').

(** Some step of the download fails: the import, or, when the folder is
    not on disk yet, the request, its status, reading the body, creating
    the directory or unpacking. *)
Definition download_fails (w : World) (branch : string) : bool :=
  (negb (isOk (fancyImport w "fs-extra"))
   || (negb (existsSync w (template_folder branch))
       && match fetch w (template_url branch) with
          | Throw _ => true
          | Ok response =>
              negb (ok response)
              || match arrayBuffer response with
                 | Throw _ => true
                 | Ok buffer =>
                     negb (isOk (ensureDir w TEMPLATES_DIR))
                     || negb (isOk (decompress w buffer TEMPLATES_DIR))
                 end
          end))%bool.

(** The same, step by step: the import throws, or the folder is not on disk
    and the request throws, answers with an error status, its body cannot be
    read, the directory cannot be created or the archive cannot be
    unpacked. *)
Definition some_step_fails (w : World) (branch : string) : Prop :=
  (exists e, fancyImport w "fs-extra" = Throw e)
  \/ (existsSync w (template_folder branch) = false
      /\ ((exists e, fetch w (template_url branch) = Throw e)
          \/ exists response,
              fetch w (template_url branch) = Ok response
              /\ (ok response = false
                  \/ (exists e, arrayBuffer response = Throw e)
                  \/ (exists e, ensureDir w TEMPLATES_DIR = Throw e)
                  \/ (exists buffer e,
                         arrayBuffer response = Ok buffer
                         /\ decompress w buffer TEMPLATES_DIR = Throw e)))).

(** the folder a new entry is read from *)
Definition folder_read (w : World) (v : option string) : string :=
  if (isReleasedMajor w v && negb (download_fails w (branchOf v)))%bool
  then template_folder (branchOf v)
  else STATIC_TEMPLATE_DIR.

(** The version parses and its major is at most the major of the newest
    remote release of the catalog. *)
Definition released_major (w : World) (v : option string) : Prop :=
  exists parsed newest,
    parse v = Some parsed
    /\ newest ∈ remote_releases w
    /\ (forall r, r ∈ remote_releases w -> (major r <= major newest)%N)
    /\ (major parsed <= major newest)%N.

(** The network is tried: [prepareTemplate] is called between the two
    states. *)
Definition network_attempted (v : option string) (st st' : State) : Prop :=
  call_prepareTemplate (branchOf v) ∈ new_events st st'.

(** The rule for trying the network as the specification words it: the
    version is absent, or its major is released. *)
Definition network_rule_as_stated (w : World) (v : option string) (st : State) : Prop :=
  network_attempted v st (getTemplate w v st).2
  <-> (v = None \/ released_major w v).

(** The rule for the cache key as the specification words it: built from
    the major whenever the version parses, [master] exactly when it does
    not. *)
Definition branch_rule_as_stated (v : option string) : Prop :=
  (forall parsed, parse v = Some parsed ->
                  branchOf v = pretty (major parsed) +:+ "-x-y")
  /\ (branchOf v = "master" <-> parse v = None).

(** every promise in the cache is resolved, none rejected *)
Definition all_resolved (st : State) : Prop :=
  forall b p, templateCache st !! b = Some p -> exists values, settled p = Ok values.

(** loading was started exactly for the branches in the cache *)
Definition counted (st : State) : Prop :=
  forall b, acquisitions b (trace st)
            = match templateCache st !! b with Some _ => 1%nat | None => 0%nat end.

End WithPaths.

(** the order [sort] establishes on the major components *)
Definition by_major (a b : SemVer) : Prop := (major a <= major b)%N.

(** *** Sample worlds *)

Definition quick_start : EditorValues :=
  {[ "main.js" := "// main process" ; "index.html" := "<html></html>" ]}.

Definition catalog : list ElectronVersion :=
  [ {| version := "11.2.0"; source := remote |};
    {| version := "12.0.0"; source := remote |};
    {| version := "999.0.0"; source := local |};
    {| version := "12.0.0-beta.3"; source := remote |} ].

(** the network answers and the archive unpacks *)
Definition online : World :=
  {| getElectronVersions := catalog;
     fancyImport := fun _ => Ok tt;
     existsSync := fun _ => false;
     fetch := fun _ => Ok {| ok := true; status := 200; statusText := "OK";
                             arrayBuffer := Ok "PK" |};
     ensureDir := fun _ => Ok tt;
     decompress := fun _ _ => Ok tt;
     readFiddle := fun _ => Ok quick_start;
     window_ElectronFiddle := None |}.

(** the network is down *)
Definition offline : World :=
  {| getElectronVersions := catalog;
     fancyImport := fun _ => Ok tt;
     existsSync := fun _ => false;
     fetch := fun _ => Throw "TypeError: Failed to fetch";
     ensureDir := fun _ => Ok tt;
     decompress := fun _ _ => Ok tt;
     readFiddle := fun _ => Ok quick_start;
     window_ElectronFiddle := None |}.

Definition templates_dir : string := "/home/user/.config/Electron Fiddle/Templates".
Definition static_dir : string := "/opt/fiddle/static/electron-quick-start".
Definition join (a b : string) : string := a +:+ "/" +:+ b.

(** three requests: a released major with the network up, the same major
    with the network down, no version *)
Definition sample_calls : list (World * option string) :=
  [(online, Some "12.1.0"); (offline, Some "12.0.0"); (online, None)].

(** *** Further vocabulary *)

(** what the cache key depends on: the major, 0 when there is none *)
Definition cache_key (v : option string) : N :=
  match parse v with
  | Some parsed => major parsed
  | None => 0%N
  end.

(** the events of the download path: everything [prepareTemplate] does, and
    the choice of the network arm in [getTemplate] *)
Definition is_download_step (e : Event) : bool :=
  match e with
  | acquire _ true => true
  | call_prepareTemplate _ | call_import _ | call_existsSync _ | call_fetch _
  | call_ensureDir _ | call_decompress _ => true
  | log_downloading _ | log_unzipping _ | log_finished _ | log_failed _ _ _ => true
  | _ => false
  end.


(** every version of the catalog is a local one *)
Definition only_local (w : World) : Prop :=
  Forall (fun v => source v = local) (getElectronVersions w).


(** the calls of [prepareTemplate] for [branch] in a trace *)
Definition is_prepare (branch : string) (e : Event) : bool :=
  match e with
  | call_prepareTemplate b => bool_decide (b = branch)
  | _ => false
  end.

Definition prepares (branch : string) (tr : list Event) : nat :=
  length (List.filter (is_prepare branch) tr).

(** the calls of [readFiddle] in a trace *)
Definition is_read (e : Event) : bool :=
  match e with call_readFiddle _ => true | _ => false end.

Definition reads (tr : list Event) : nat := length (List.filter is_read tr).

(** the branches a list of calls asks for *)
Definition branches (calls : list (World * option string)) : list string :=
  (fun c => branchOf c.2) <$> calls.

(** The contract as the specification words it: the promise of
    [getTemplate] resolves to some value. *)
Definition never_rejects_as_stated (TEMPLATES_DIR STATIC_TEMPLATE_DIR : string)
    (path_join : string -> string -> string)
    (w : World) (v : option string) (st : State) : Prop :=
  exists values,
    settled (getTemplate TEMPLATES_DIR STATIC_TEMPLATE_DIR path_join w v st).1 = Ok values.

(** *** Further sample worlds *)

(** the download works, the static folder can be read, the downloaded one
    cannot *)
Definition unreadable : World :=
  {| getElectronVersions := catalog;
     fancyImport := fun _ => Ok tt;
     existsSync := fun _ => false;
     fetch := fun _ => Ok {| ok := true; status := 200; statusText := "OK";
                             arrayBuffer := Ok "PK" |};
     ensureDir := fun _ => Ok tt;
     decompress := fun _ _ => Ok tt;
     readFiddle := fun folder =>
                     if String.eqb folder static_dir then Ok quick_start
                     else Throw "EACCES: permission denied";
     window_ElectronFiddle := None |}.

(** the application is there and its editors cannot be read *)
Definition broken_editors : World :=
  {| getElectronVersions := catalog;
     fancyImport := fun _ => Ok tt;
     existsSync := fun _ => false;
     fetch := fun _ => Throw "TypeError: Failed to fetch";
     ensureDir := fun _ => Ok tt;
     decompress := fun _ _ => Ok tt;
     readFiddle := fun _ => Ok quick_start;
     window_ElectronFiddle :=
       Some {| app := Some {| getEditorValues := Throw "Error: editor disposed" |} |} |}.

(** the application is there and the static folder cannot be read *)
Definition broken_static : World :=
  {| getElectronVersions := catalog;
     fancyImport := fun _ => Ok tt;
     existsSync := fun _ => false;
     fetch := fun _ => Throw "TypeError: Failed to fetch";
     ensureDir := fun _ => Ok tt;
     decompress := fun _ _ => Ok tt;
     readFiddle := fun _ => Throw "ENOENT: no such file or directory";
     window_ElectronFiddle :=
       Some {| app := Some {| getEditorValues := Ok quick_start |} |} |}.


(** a catalog that was never fetched: local builds only *)
Definition unfetched : World :=
  {| getElectronVersions := [ {| version := "999.0.0"; source := local |} ];
     fancyImport := fun _ => Ok tt;
     existsSync := fun _ => false;
     fetch := fun _ => Ok {| ok := true; status := 200; statusText := "OK";
                             arrayBuffer := Ok "PK" |};
     ensureDir := fun _ => Ok tt;
     decompress := fun _ _ => Ok tt;
     readFiddle := fun _ => Ok quick_start;
     window_ElectronFiddle := None |}.

(** every template folder is on disk already *)
Definition downloaded : World :=
  {| getElectronVersions := catalog;
     fancyImport := fun _ => Ok tt;
     existsSync := fun _ => true;
     fetch := fun _ => Throw "TypeError: Failed to fetch";
     ensureDir := fun _ => Ok tt;
     decompress := fun _ _ => Ok tt;
     readFiddle := fun _ => Ok quick_start;
     window_ElectronFiddle := None |}.

(** the editors hold the template, with [main.js] edited *)
Definition edited : EditorValues :=
  {[ "main.js" := "// changed" ; "index.html" := "<html></html>" ]}.

Definition editing : World :=
  {| getElectronVersions := catalog;
     fancyImport := fun _ => Ok tt;
     existsSync := fun _ => false;
     fetch := fun _ => Throw "TypeError: Failed to fetch";
     ensureDir := fun _ => Ok tt;
     decompress := fun _ _ => Ok tt;
     readFiddle := fun _ => Ok quick_start;
     window_ElectronFiddle :=
       Some {| app := Some {| getEditorValues := Ok edited |} |} |}.

End Content.

(** ** The command-line module ([open], [test], [bisect]) *)

Module CommandLine.

(** Declared in [../interfaces]: the release channels, the result of a
    run, the result of a bisect, a gist reference, an output line. *)
Inductive ElectronReleaseChannel : Type := stable | beta | nightly | unsupported.

Inductive RunResult : Type := SUCCESS | FAILURE | INVALID.

Record BisectResult : Type := {
  goodVersion : option string;
  badVersion : option string
}.

Record GistInfo : Type := {
  id : string;
  confirmed : bool
}.

Record OutputEntry : Type := {
  timestamp : N;
  text : string
}.

(** The values of [commander.OptionValues] the commands read. *)
Record OptionValues : Type := {
  betas : option bool;
  nightlies : option bool;
  fiddle : option string;
  opt_version : option string
}.

(** The channels of [IpcEvents] listened to, and what arrives on them. *)
Inductive IpcEvent : Type := OUTPUT_ENTRY | BISECT_DONE | COMMAND_DONE | RUN_DONE.

Inductive Incoming : Type :=
| output_entry (message : OutputEntry)
| bisect_done (result : BisectResult)
| command_done (success : bool)
| run_done (result : RunResult).

Definition channel_of (m : Incoming) : IpcEvent :=
  match m with
  | output_entry _ => OUTPUT_ENTRY
  | bisect_done _ => BISECT_DONE
  | command_done _ => COMMAND_DONE
  | run_done _ => RUN_DONE
  end.

(** The messages sent with [ipcMainManager.send]. *)
Inductive Message : Type :=
| FS_OPEN_FIDDLE (paths : list (option string))
| SET_VERSION (v : string)
| SHOW_CHANNELS (channels : list ElectronReleaseChannel)
| HIDE_CHANNELS (channels : list ElectronReleaseChannel)
| FIDDLE_BISECT (good bad : string)
| LOAD_GIST_REQUEST (info : GistInfo)
| FIDDLE_RUN.

(** The [name] given to [logWhenDone]. *)
Inductive CommandName : Type :=
| open_fiddle (source : string)
| open_gist (id : string).

(** The lines printed. *)
Inductive Line : Type :=
| Loading (fiddle : option string)
| Setting_version (v : string)
| Showing (channels : list ElectronReleaseChannel)
| Hiding (channels : list ElectronReleaseChannel)
| Output (message : OutputEntry)
| Swapping (good bad : string)
| Command_succeeded (name : CommandName)
| Command_failed (name : CommandName)
| Result_line (result : RunResult).

(** The callbacks registered on [ipcMainManager], by the function that
    creates them. *)
Inductive Listener : Type :=
| onOutputEntry
| bisect_listener
| logWhenDone_listener (name : CommandName) (exitWhenDone : bool)
| test_listener.

Inductive Effect : Type :=
| console_log (l : Line)
| console_warn (l : Line)
| ipc_send (m : Message)
| ipc_on (ev : IpcEvent) (l : Listener)
| ipc_once (ev : IpcEvent) (l : Listener)
| app_exit (code : Z).

#[global] Instance ElectronReleaseChannel_eq_dec : EqDecision ElectronReleaseChannel.
Proof. solve_decision. Defined.
#[global] Instance RunResult_eq_dec : EqDecision RunResult.
Proof. solve_decision. Defined.
#[global] Instance GistInfo_eq_dec : EqDecision GistInfo.
Proof. solve_decision. Defined.
#[global] Instance OutputEntry_eq_dec : EqDecision OutputEntry.
Proof. solve_decision. Defined.
#[global] Instance IpcEvent_eq_dec : EqDecision IpcEvent.
Proof. solve_decision. Defined.
#[global] Instance Message_eq_dec : EqDecision Message.
Proof. solve_decision. Defined.
#[global] Instance CommandName_eq_dec : EqDecision CommandName.
Proof. solve_decision. Defined.
#[global] Instance Line_eq_dec : EqDecision Line.
Proof. solve_decision. Defined.
#[global] Instance Listener_eq_dec : EqDecision Listener.
Proof. solve_decision. Defined.
#[global] Instance Effect_eq_dec : EqDecision Effect.
Proof. solve_decision. Defined.

(** JavaScript truthiness of an optional string *)
Definition truthy (s : option string) : bool :=
  match s with
  | Some (String _ _) => true
  | _ => false
  end.

Definition optFiddle (opts : OptionValues) : list Effect :=
  [console_log (Loading (fiddle opts)); ipc_send (FS_OPEN_FIDDLE [fiddle opts])].

Definition optVersion (opts : OptionValues) : list Effect :=
  match opt_version opts with
  | Some (String c v) =>
      [console_log (Setting_version (String c v)); ipc_send (SET_VERSION (String c v))]
  | _ => []
  end.

Definition optShow (opts : OptionValues) : list Effect :=
  let channels :=
    (if bool_decide (betas opts = Some true) then [beta] else [])
    ++ (if bool_decide (nightlies opts = Some true) then [nightly] else []) in
  if (0 <? length channels)%nat
  then [console_log (Showing channels); ipc_send (SHOW_CHANNELS channels)]
  else [].

Definition optHide (opts : OptionValues) : list Effect :=
  let channels :=
    (if bool_decide (betas opts = Some false) then [beta] else [])
    ++ (if bool_decide (nightlies opts = Some false) then [nightly] else []) in
  if (0 <? length channels)%nat
  then [console_log (Hiding channels); ipc_send (HIDE_CHANNELS channels)]
  else [].

(** What a registered callback does with what arrives. *)
Definition fire (l : Listener) (m : Incoming) : list Effect :=
  match l, m with
  | onOutputEntry, output_entry message => [console_log (Output message)]
  | bisect_listener, bisect_done result =>
      [app_exit (if (truthy (goodVersion result) && truthy (badVersion result))%bool
                 then 0 else 1)%Z]
  | logWhenDone_listener name exitWhenDone, command_done success =>
      console_log (if success then Command_succeeded name else Command_failed name)
      :: (if exitWhenDone then [app_exit (if success then 0 else 1)%Z] else [])
  | test_listener, run_done result =>
      [console_log (Result_line result);
       app_exit (if bool_decide (result = SUCCESS) then 0 else 1)%Z]
  | _, _ => []
  end.

(** [logWhenDone(name, exitWhenDone = false)] *)
Definition logWhenDone (name : CommandName) (exitWhenDone : option bool) : list Effect :=
  [ipc_once COMMAND_DONE (logWhenDone_listener name (default false exitWhenDone))].

(** [/[0-9A-Fa-f]{32}/] at the start of [s] *)
Definition hex32_here (s : string) : bool :=
  let p := Str.take 32 s in
  ((String.length p =? 32)%nat && Str.all Str.is_hex p)%bool.

(** [s.match(/[0-9A-Fa-f]{32}/)] is not [null]: the expression matches at
    some position of [s]. *)
Fixpoint matches_hex32 (s : string) : bool :=
  (hex32_here s
   || match s with
      | EmptyString => false
      | String _ s' => matches_hex32 s'
      end)%bool.

(** The text tested against the expression: [id] before the [if]. *)
Definition gist_candidate (source : string) : option string :=
  if Str.startsWith "https://gist.github.com" source then
    let source := if Str.endsWithChar "/"%char source then Str.dropLast source else source in
    Str.pop (Str.split "/"%char source)
  else Some source.

Definition open (existsSync : string -> bool) (source : string) : list Effect :=
  if existsSync source then
    logWhenDone (open_fiddle source) None
    ++ [ipc_send (FS_OPEN_FIDDLE [Some source])]
  else
    match gist_candidate source with
    | Some id =>
        if (truthy (Some id) && matches_hex32 id)%bool then
          logWhenDone (open_gist id) None
          ++ [ipc_send (LOAD_GIST_REQUEST {| id := id; confirmed := true |})]
        else []
    | None => []
    end.

Definition test (opts : OptionValues) : list Effect :=
  optFiddle opts ++ optVersion opts
  ++ [ipc_on OUTPUT_ENTRY onOutputEntry;
      ipc_once RUN_DONE test_listener;
      ipc_send FIDDLE_RUN].

(** [bisect]: [semver.compare] throws on a version it cannot parse, which
    ends the command after the effects performed so far.
    [normalizeVersion] is imported from [../utils/normalize-version]. *)
Definition bisect (normalizeVersion : string -> string)
    (good bad : string) (opts : OptionValues) : list Effect * Result unit :=
  let before := optHide opts ++ optShow opts ++ optFiddle opts in
  let good := normalizeVersion good in
  let bad := normalizeVersion bad in
  match semver.compare good bad with
  | None => (before, Throw "TypeError: Invalid Version")
  | Some c =>
      let '(good, bad, warned) :=
        if (0 <? c)%Z then (bad, good, [console_warn (Swapping bad good)])
        else (good, bad, []) in
      (before ++ warned
       ++ [ipc_on OUTPUT_ENTRY onOutputEntry;
           ipc_once BISECT_DONE bisect_listener;
           ipc_send (FIDDLE_BISECT good bad)],
       Ok tt)
  end.

(** *** The process around the commands

    The listeners registered so far, every effect performed, and the exit
    code once [app.exit] has run. *)
Record Process : Type := {
  listeners : list (IpcEvent * bool * Listener);
  performed : list Effect;
  exitCode : option Z
}.

Definition started : Process :=
  {| listeners := []; performed := []; exitCode := None |}.

Definition perform (p : Process) (e : Effect) : Process :=
  match exitCode p with
  | Some _ => p
  | None =>
      let done := performed p ++ [e] in
      match e with
      | ipc_on ev l =>
          {| listeners := listeners p ++ [(ev, false, l)]; performed := done;
             exitCode := None |}
      | ipc_once ev l =>
          {| listeners := listeners p ++ [(ev, true, l)]; performed := done;
             exitCode := None |}
      | app_exit code =>
          {| listeners := listeners p; performed := done; exitCode := Some code |}
      | _ => {| listeners := listeners p; performed := done; exitCode := None |}
      end
  end.

Definition perform_all (p : Process) (es : list Effect) : Process :=
  fold_left perform es p.

(** A message arrives on its channel: the listeners of that channel run in
    the order they were registered, the [once] ones are removed. *)
Definition deliver (p : Process) (m : Incoming) : Process :=
  match exitCode p with
  | Some _ => p
  | None =>
      let hit := fun r : IpcEvent * bool * Listener =>
                   bool_decide (r.1.1 = channel_of m) in
      let called := List.filter hit (listeners p) in
      let kept := List.filter (fun r => negb (hit r && r.1.2)) (listeners p) in
      perform_all
        {| listeners := kept; performed := performed p; exitCode := None |}
        (List.flat_map (fun r => fire r.2 m) called)
  end.

(** *** Vocabulary of the properties *)

(** a 32-character hexadecimal string *)
Definition is_gist_id (s : string) : Prop :=
  String.length s = 32%nat /\ Str.all Str.is_hex s = true.

(** 32 hexadecimal characters in a row somewhere in [s] *)
Definition contains_gist_id (s : string) : Prop :=
  exists pre mid post, s = pre +:+ mid +:+ post /\ is_gist_id mid.

Definition gist_request (id : string) : Effect :=
  ipc_send (LOAD_GIST_REQUEST {| id := id; confirmed := true |}).

(** [segments.join(sep)] *)
Fixpoint join_with (sep : ascii) (segments : list string) : string :=
  match segments with
  | [] => EmptyString
  | [w] => w
  | w :: rest => w +:+ String sep (join_with sep rest)
  end.

Definition no_sep (sep : ascii) (s : string) : Prop :=
  Str.all (fun c => negb (Ascii.eqb c sep)) s = true.

(** The rule for gists as the specification words it: a request is sent
    exactly when the text tested is a 32-character hexadecimal string, and
    nothing is done otherwise. *)
Definition gist_rule_as_stated (existsSync : string -> bool) (source : string) : Prop :=
  existsSync source = false ->
  forall id, gist_candidate source = Some id ->
    (gist_request id ∈ open existsSync source <-> is_gist_id id)
    /\ (~ is_gist_id id -> open existsSync source = []).

(** the process after [open source] and the arrival of [command-done] *)
Definition after_open (existsSync : string -> bool) (source : string) (success : bool)
  : Process :=
  deliver (perform_all started (open existsSync source)) (command_done success).

(** The rule for local paths as the specification words it: the process
    exits with 0 or 1 once [command-done] has arrived. *)
Definition exit_rule_as_stated (existsSync : string -> bool) (source : string)
    (success : bool) : Prop :=
  existsSync source = true ->
  exitCode (after_open existsSync source success) = Some (if success then 0 else 1)%Z.

(** the process after [test opts] and the arrival of [run-done] *)
Definition after_test (opts : OptionValues) (result : RunResult) : Process :=
  deliver (perform_all started (test opts)) (run_done result).

(** *** Samples *)

(** a [normalizeVersion] that drops a leading [v] *)
Definition drop_v (version : string) : string :=
  match version with
  | String "v"%char rest => rest
  | _ => version
  end.

Definition no_options : OptionValues :=
  {| betas := None; nightlies := None; fiddle := None; opt_version := None |}.

(** *** Further vocabulary *)

(** messages arriving one after the other *)
Definition deliver_all (p : Process) (ms : list Incoming) : Process :=
  fold_left deliver ms p.

(** the address a gist URL starts with *)
Definition gist_address : string := "https://gist.github.com".

(** the process after [bisect good bad opts] and the arrival of
    [bisect-done] *)
Definition after_bisect (normalizeVersion : string -> string) (good bad : string)
    (opts : OptionValues) (result : BisectResult) : Process :=
  deliver (perform_all started (bisect normalizeVersion good bad opts).1)
    (bisect_done result).

(** an effect that registers a listener or asks for a bisect *)
Definition starts_bisect (e : Effect) : bool :=
  match e with
  | ipc_on _ _ | ipc_once _ _ => true
  | ipc_send (FIDDLE_BISECT _ _) => true
  | _ => false
  end.

Definition is_console_log (e : Effect) : bool :=
  match e with console_log _ => true | _ => false end.

(** a listener that only prints *)
Definition only_prints (l : Listener) : Prop :=
  forall m, forallb is_console_log (fire l m) = true.

(** U+00A0, a no-break space, in UTF-8 *)
Definition no_break_space : string :=
  String (ascii_of_nat 194) (String (ascii_of_nat 160) EmptyString).

Definition beta_and_no_nightly : OptionValues :=
  {| betas := Some true; nightlies := Some false; fiddle := None; opt_version := None |}.

End CommandLine.

(** ** The bisect controller *)

Module Bisect.

Definition inspect {A} (a : A) : {b | a = b} := exist _ a eq_refl.

Section Controller.

Context {Version : Type}.

(** the ordered, deduplicated versions of the range, good end first *)
Variable versions : list Version.

(** one run of the fiddle at a version: [true] when it succeeds *)
Variable runner : Version -> bool.

(** Modelled from the spec: the midpoint of the remaining range, by
    index in the version list (BisectController, section 4.2, step 2;
    the controller's source is not part of [src/]). *)
Definition midpoint (good bad : nat) : nat := good + (bad - good) / 2.

(** Modelled from the spec: one iteration of the BisectController
    (section 4.2, steps 1 to 4; not part of [src/]).  [None] when the
    range has collapsed and the search is over, otherwise the version
    run, its result and the narrowed range. *)
Definition bisect_step (good bad : nat) : option (nat * bool * (nat * nat)) :=
  if (bad - good <=? 1)%nat then None
  else
    let mid := midpoint good bad in
    match versions !! mid with
    | None => None
    | Some v =>
        if runner v then Some (mid, true, (mid, bad))
        else Some (mid, false, (good, mid))
    end.

(** Modelled from the spec: the loop of the BisectController (section
    4.2; not part of [src/]): the runs made, in order, and the final
    range. *)
Equations? bisect_loop (good bad : nat) : list (nat * bool) * (nat * nat)
  by wf (bad - good) lt :=
  bisect_loop good bad with inspect (bisect_step good bad) => {
    | exist _ None _ => ([], (good, bad));
    | exist _ (Some s) Hstep =>
        let '(runs, final) := bisect_loop s.2.1 s.2.2 in
        ((s.1.1, s.1.2) :: runs, final) }.
Proof.
  unfold bisect_step, midpoint in Hstep.
  destruct (bad - good <=? 1)%nat eqn:Hle; [discriminate |].
  apply Nat.leb_gt in Hle.
  assert (Hdiv : ((bad - good) / 2 < bad - good)%nat)
    by (apply Nat.div_lt; lia).
  assert (Hpos : (0 < (bad - good) / 2)%nat)
    by (apply Nat.div_str_pos; lia).
  set (half := ((bad - good) / 2)%nat) in *.
  destruct (versions !! _); [| discriminate].
  destruct (runner _); injection Hstep as <-; cbn [fst snd]; lia.
Qed.

(** Modelled from the spec: [bisect(good, bad)] over the whole list
    (BisectController, section 4.2; not part of [src/]): the boundary
    pair, unset where the list has no such version. *)
Definition bisect : list (nat * bool) * (option Version * option Version) :=
  let '(runs, (good, bad)) := bisect_loop 0 (length versions - 1) in
  (runs, (versions !! good, versions !! bad)).

(** *** Vocabulary of the properties *)

(** Every run of [runs], replayed from the range [good, bad], is at the
    midpoint of the range it meets, strictly inside it, and its result is
    the runner's; the range then continues with the midpoint as one of its
    bounds. *)
Fixpoint narrowing (runs : list (nat * bool)) (good bad : nat) : Prop :=
  match runs with
  | [] => True
  | (mid, passed) :: rest =>
      mid = midpoint good bad
      /\ (good < mid)%nat /\ (mid < bad)%nat
      /\ (exists v, versions !! mid = Some v /\ runner v = passed)
      /\ narrowing rest (if passed then mid else good) (if passed then bad else mid)
  end.

(** the range left after [runs] *)
Fixpoint range_after (runs : list (nat * bool)) (good bad : nat) : nat * nat :=
  match runs with
  | [] => (good, bad)
  | (mid, passed) :: rest =>
      range_after rest (if passed then mid else good) (if passed then bad else mid)
  end.

End Controller.

(** *** Sample: eight versions, the regression arrives with the fourth *)

Definition eight : list nat := [10; 11; 12; 13; 14; 15; 16; 17]%nat.

Definition before_13 (v : nat) : bool := (v <? 13)%nat.

End Bisect.

(** * Properties *)

(** ** Facts about the [semver] model *)

Module semver_facts.

Import semver.

Example parse_plain : major <$> parse (Some "11.2.0") = Some 11%N.
Proof. reflexivity. Qed.

Example parse_absent : parse None = None.
Proof. reflexivity. Qed.

Example parse_garbage : parse (Some "not-a-version") = None.
Proof. reflexivity. Qed.

Example parse_prerelease :
  prerelease <$> parse (Some "v12.0.0-beta.3+build.7") = Some [IStr "beta"; INum 3].
Proof. reflexivity. Qed.

Example compare_out_of_order : compare "11.2.0" "10.0.0" = Some 1%Z.
Proof. reflexivity. Qed.

Example compare_prerelease_first : compare "12.0.0-beta.3" "12.0.0" = Some (-1)%Z.
Proof. reflexivity. Qed.

Lemma Z_of_comparison_opp c : Z_of_comparison (CompOpp c) = (- Z_of_comparison c)%Z.
Proof. by destruct c. Qed.

Lemma or_else_opp x y : or_else (- x) (- y) = (- or_else x y)%Z.
Proof.
  unfold or_else.
  destruct (Z.eqb_spec x 0) as [-> | Hx]; [done |].
  destruct (Z.eqb_spec (- x) 0); [lia | done].
Qed.

Lemma compareIdentifiers_opp a b :
  compareIdentifiers b a = (- compareIdentifiers a b)%Z.
Proof.
  unfold compareIdentifiers.
  destruct (numeric_of a) as [x |] eqn:Ha, (numeric_of b) as [y |] eqn:Hb; try done.
  - by rewrite N.compare_antisym, Z_of_comparison_opp.
  - destruct a as [n | s], b as [m | t]; try done.
    by rewrite String.compare_antisym, Z_of_comparison_opp.
Qed.

Lemma ident_strict_eq_sym a b : ident_strict_eq a b = ident_strict_eq b a.
Proof.
  destruct a, b; simpl; try done.
  - apply N.eqb_sym.
  - apply String.eqb_sym.
Qed.

Lemma comparePre_loop_opp p : forall q,
  comparePre_loop q p = (- comparePre_loop p q)%Z.
Proof.
  induction p as [| a p IH]; intros [| b q]; simpl; try done.
  rewrite (ident_strict_eq_sym b a).
  destruct (ident_strict_eq a b); [apply IH | apply compareIdentifiers_opp].
Qed.

Lemma comparePre_opp a b : comparePre b a = (- comparePre a b)%Z.
Proof.
  unfold comparePre.
  destruct (prerelease a) as [| x p] eqn:Ha, (prerelease b) as [| y q] eqn:Hb; try done.
  apply comparePre_loop_opp.
Qed.

Lemma compareMain_opp a b : compareMain b a = (- compareMain a b)%Z.
Proof.
  unfold compareMain.
  rewrite (compareIdentifiers_opp (INum (major a))),
    (compareIdentifiers_opp (INum (minor a))),
    (compareIdentifiers_opp (INum (patch a))).
  by rewrite !or_else_opp.
Qed.

(** Exchanging the arguments of [compare] negates the result. *)
Lemma compare_semver_opp a b : compare_semver b a = (- compare_semver a b)%Z.
Proof.
  unfold compare_semver.
  by rewrite compareMain_opp, comparePre_opp, or_else_opp.
Qed.

Lemma compare_major_lt a b :
  (major a < major b)%N -> compare_semver a b = (-1)%Z.
Proof.
  intros H. unfold compare_semver, compareMain, compareIdentifiers; simpl.
  apply N.compare_lt_iff in H. by rewrite H.
Qed.

Lemma compare_major_gt a b :
  (major b < major a)%N -> compare_semver a b = 1%Z.
Proof.
  intros H. unfold compare_semver, compareMain, compareIdentifiers; simpl.
  apply N.compare_gt_iff in H. by rewrite H.
Qed.

(** The comparison looks at the major component first. *)
Lemma compare_le_major a b :
  (compare_semver a b <= 0)%Z -> (major a <= major b)%N.
Proof.
  intros H. destruct (N.le_gt_cases (major a) (major b)) as [| Hgt]; [done |].
  rewrite (compare_major_gt _ _ Hgt) in H. lia.
Qed.

Lemma compare_gt_major a b :
  (0 < compare_semver a b)%Z -> (major b <= major a)%N.
Proof.
  intros H. destruct (N.le_gt_cases (major b) (major a)) as [| Hgt]; [done |].
  rewrite (compare_major_lt _ _ Hgt) in H. lia.
Qed.

End semver_facts.

(** ** Facts about the template cache *)

Module Content_facts.

Import semver semver_facts Content.

(** *** [sort] and [pop] *)

Lemma pop_nil_iff {A} (l : list A) : Str.pop l = None <-> l = [].
Proof.
  unfold Str.pop. split; [| by intros ->].
  induction l as [| a [| b l] IH]; simpl in *; [done | done |].
  intros H. by specialize (IH H).
Qed.

Lemma pop_elem_of {A} (l : list A) x : Str.pop l = Some x -> x ∈ l.
Proof.
  unfold Str.pop.
  induction l as [| a [| b l] IH]; simpl in *; [done | |].
  - intros [= ->]. apply list_elem_of_here.
  - intros H. apply list_elem_of_further. by apply IH.
Qed.

Lemma pop_cons {A} (a b : A) l : Str.pop (a :: b :: l) = Str.pop (b :: l).
Proof. reflexivity. Qed.

Lemma pop_sorted_max l n :
  StronglySorted by_major l -> Str.pop l = Some n ->
  forall x, x ∈ l -> (major x <= major n)%N.
Proof.
  induction 1 as [| a l Hsorted IH Hall]; [done |].
  destruct l as [| b l].
  - intros [= ->] x Hx. apply list_elem_of_singleton in Hx as ->. lia.
  - rewrite pop_cons. intros Hpop x Hx.
    apply elem_of_cons in Hx as [-> | Hx]; [| by apply IH].
    rewrite Forall_forall in Hall.
    apply Hall, pop_elem_of, Hpop.
Qed.

Lemma elem_of_sort_insert x y l : y ∈ sort_insert x l <-> y = x \/ y ∈ l.
Proof.
  induction l as [| z l IH]; simpl.
  - by rewrite list_elem_of_singleton, elem_of_nil; intuition.
  - destruct (compare_semver x z <=? 0)%Z.
    + by rewrite elem_of_cons.
    + rewrite !elem_of_cons, IH. intuition.
Qed.

Lemma elem_of_sort y l : y ∈ sort l <-> y ∈ l.
Proof.
  induction l as [| x l IH]; simpl; [done |].
  by rewrite elem_of_sort_insert, elem_of_cons, IH.
Qed.

Lemma sort_insert_sorted x l :
  StronglySorted by_major l -> StronglySorted by_major (sort_insert x l).
Proof.
  induction 1 as [| z l Hsorted IH Hall]; simpl.
  - repeat constructor.
  - destruct (Z.leb_spec (compare_semver x z) 0) as [Hle | Hgt].
    + apply compare_le_major in Hle.
      constructor; [by constructor |].
      constructor; [done |].
      eapply Forall_impl; [exact Hall |].
      unfold by_major. intros; simpl in *; lia.
    + apply compare_gt_major in Hgt.
      constructor; [done |].
      rewrite Forall_forall in *. intros y Hy.
      apply elem_of_sort_insert in Hy as [-> | Hy]; [done |].
      by apply Hall.
Qed.

Lemma sort_sorted l : StronglySorted by_major (sort l).
Proof.
  induction l; simpl; [constructor | by apply sort_insert_sorted].
Qed.

(** [newestRelease] is a remote release of the catalog whose major is the
    largest among them; there is none exactly when no remote release
    parses. *)
Lemma newestRelease_spec w :
  match newestRelease w with
  | Some n => n ∈ remote_releases w
              /\ forall r, r ∈ remote_releases w -> (major r <= major n)%N
  | None => remote_releases w = []
  end.
Proof.
  unfold newestRelease.
  destruct (Str.pop (sort (remote_releases w))) as [n |] eqn:Hpop.
  - split.
    + by apply elem_of_sort, pop_elem_of.
    + intros r Hr. eapply pop_sorted_max; [apply sort_sorted | exact Hpop |].
      by apply elem_of_sort.
  - apply pop_nil_iff in Hpop.
    destruct (remote_releases w) as [| x l] eqn:Hl; [done |].
    assert (x ∈ sort (x :: l)) as Hx by (apply elem_of_sort, list_elem_of_here).
    rewrite Hpop in Hx. by apply elem_of_nil in Hx.
Qed.

Section WithPaths.

Variables TEMPLATES_DIR STATIC_TEMPLATE_DIR : string.
Variable path_join : string -> string -> string.

Local Abbreviation template_folder := (Content.template_folder TEMPLATES_DIR path_join).
Local Abbreviation folder_read :=
  (Content.folder_read TEMPLATES_DIR STATIC_TEMPLATE_DIR path_join).
Local Abbreviation network_rule_as_stated :=
  (Content.network_rule_as_stated TEMPLATES_DIR STATIC_TEMPLATE_DIR path_join).
Local Abbreviation download_fails := (Content.download_fails TEMPLATES_DIR path_join).
Local Abbreviation some_step_fails := (Content.some_step_fails TEMPLATES_DIR path_join).
Local Abbreviation prepareTemplate :=
  (Content.prepareTemplate TEMPLATES_DIR STATIC_TEMPLATE_DIR path_join).
Local Abbreviation getTemplate :=
  (Content.getTemplate TEMPLATES_DIR STATIC_TEMPLATE_DIR path_join).
Local Abbreviation getContent :=
  (Content.getContent TEMPLATES_DIR STATIC_TEMPLATE_DIR path_join).
Local Abbreviation isContentUnchanged :=
  (Content.isContentUnchanged TEMPLATES_DIR STATIC_TEMPLATE_DIR path_join).
Local Abbreviation run := (Content.run TEMPLATES_DIR STATIC_TEMPLATE_DIR path_join).

(** *** [prepareTemplate] *)

Lemma acquisitions_app b tr1 tr2 :
  acquisitions b (tr1 ++ tr2) = (acquisitions b tr1 + acquisitions b tr2)%nat.
Proof. unfold acquisitions. by rewrite List.filter_app, length_app. Qed.

Lemma acquisitions_cons b e tr :
  acquisitions b (e :: tr)
  = ((if is_acquire b e then 1 else 0) + acquisitions b tr)%nat.
Proof. unfold acquisitions; simpl. by destruct (is_acquire b e). Qed.

(** [prepareTemplate] always returns a folder: the downloaded one, or the
    static one as soon as a step fails.  It starts no other template. *)
Lemma prepareTemplate_spec w branch tr :
  exists evs,
    prepareTemplate w branch tr
    = (Ok (if download_fails w branch then STATIC_TEMPLATE_DIR
           else template_folder branch),
       tr ++ call_prepareTemplate branch :: evs)
    /\ forall b, acquisitions b evs = 0%nat.
Proof.
  unfold Content.prepareTemplate, Content.download_fails.
  unfold bind, emit, call, try_catch, ret, throw, lift.
  destruct (fancyImport w "fs-extra") as [[] | e0]; simpl.
  2: { eexists. rewrite <- !app_assoc. simpl. split; [reflexivity | done]. }
  destruct (existsSync w _); simpl.
  { eexists. rewrite <- !app_assoc. simpl. split; [reflexivity | done]. }
  destruct (fetch w _) as [response | e1]; simpl.
  2: { eexists. rewrite <- !app_assoc. simpl. split; [reflexivity | done]. }
  destruct (ok response); simpl.
  2: { eexists. rewrite <- !app_assoc. simpl. split; [reflexivity | done]. }
  destruct (arrayBuffer response) as [buffer | e2]; simpl.
  2: { eexists. rewrite <- !app_assoc. simpl. split; [reflexivity | done]. }
  destruct (ensureDir w _) as [[] | e3]; simpl.
  2: { eexists. rewrite <- !app_assoc. simpl. split; [reflexivity | done]. }
  destruct (decompress w _ _) as [[] | e4]; simpl.
  2: { eexists. rewrite <- !app_assoc. simpl. split; [reflexivity | done]. }
  eexists. rewrite <- !app_assoc. simpl. split; [reflexivity | done].
Qed.

Lemma download_fails_iff w branch :
  download_fails w branch = true <-> some_step_fails w branch.
Proof.
  unfold Content.download_fails, Content.some_step_fails.
  destruct (fancyImport w "fs-extra") as [[] | e0]; simpl.
  2: { split; [intros _; left; by exists e0 | done]. }
  destruct (existsSync w _); simpl.
  { split; [done |]. intros [[e He] | [He _]]; discriminate He. }
  destruct (fetch w _) as [response | e1]; simpl.
  2: { split; [intros _; right; split; [done |]; left; by exists e1 | done]. }
  destruct (ok response) eqn:Hok; simpl.
  2: { split; [| done]. intros _. right. split; [done |]. right.
       exists response. split; [done |]. by left. }
  destruct (arrayBuffer response) as [buffer | e2] eqn:Hbuf; simpl.
  2: { split; [| done]. intros _. right. split; [done |]. right.
       exists response. split; [done |]. right; left. rewrite Hbuf. by exists e2. }
  destruct (ensureDir w _) as [[] | e3]; simpl.
  2: { split; [| done]. intros _. right. split; [done |]. right.
       exists response. split; [done |]. right; right; left. by exists e3. }
  destruct (decompress w buffer _) as [[] | e4] eqn:Hzip; simpl.
  2: { split; [| done]. intros _. right. split; [done |]. right.
       exists response. split; [done |]. right; right; right.
       exists buffer, e4. by rewrite Hbuf. }
  split; [done |].
  intros [[e He] | [_ [[e He] | (r & [= <-] & Hr)]]]; try discriminate He.
  destruct Hr as [Hr | [[e Hr] | [[e Hr] | (b & e & Hb & Hr)]]]; try congruence.
Qed.

(** *** One call of [getTemplate] *)

Lemma getTemplate_hit w v st p :
  templateCache st !! branchOf v = Some p ->
  getTemplate w v st
  = (p, {| templateCache := templateCache st; nextPid := nextPid st;
           trace := trace st ++ [call_getTemplate v] |}).
Proof. intros H. unfold Content.getTemplate. by rewrite H. Qed.

Lemma getTemplate_miss w v st :
  templateCache st !! branchOf v = None ->
  exists evs,
    let b := branchOf v in
    let p := {| pid := nextPid st; settled := readFiddle w (folder_read w v) |} in
    getTemplate w v st
    = (p, {| templateCache := <[b := p]> (templateCache st);
             nextPid := S (nextPid st);
             trace := trace st
                      ++ [call_getTemplate v; log_loading b;
                          acquire b (isReleasedMajor w v)] ++ evs |})
    /\ (forall b', acquisitions b' evs = 0%nat)
    /\ (if isReleasedMajor w v
        then exists evs', evs = call_prepareTemplate b :: evs'
        else evs = [call_readFiddle STATIC_TEMPLATE_DIR]).
Proof.
  intros Hmiss. unfold Content.getTemplate, Content.folder_read. rewrite Hmiss.
  unfold bind at 1. unfold emit at 1.
  destruct (isReleasedMajor w v); simpl.
  - unfold bind at 1. unfold emit at 1. unfold bind.
    destruct (prepareTemplate_spec w (branchOf v)
                (((trace st ++ [call_getTemplate v]) ++ [log_loading (branchOf v)])
                   ++ [acquire (branchOf v) true]))
      as (evs & -> & Hevs).
    unfold call_to_readFiddle, call.
    exists (call_prepareTemplate (branchOf v)
              :: evs ++ [call_readFiddle
                           (if download_fails w (branchOf v)
                            then STATIC_TEMPLATE_DIR
                            else template_folder (branchOf v))]).
    split; [| split].
    + destruct (download_fails w (branchOf v)); simpl;
        by rewrite <- !app_assoc.
    + intros b'. change (call_prepareTemplate (branchOf v) :: evs ++ ?l)
        with ([call_prepareTemplate (branchOf v)] ++ evs ++ l).
      rewrite !acquisitions_app, Hevs. done.
    + eauto.
  - unfold bind, emit, call_to_readFiddle, call.
    exists [call_readFiddle STATIC_TEMPLATE_DIR].
    split; [| done].
    by rewrite <- !app_assoc.
Qed.

Lemma new_events_app st tr' l cache n :
  tr' = trace st ++ l ->
  new_events st {| templateCache := cache; nextPid := n; trace := tr' |} = l.
Proof. intros ->. unfold new_events; simpl. apply drop_app_length. Qed.

Lemma getTemplate_stored w v st :
  templateCache (getTemplate w v st).2 !! branchOf v = Some (getTemplate w v st).1.
Proof.
  destruct (templateCache st !! branchOf v) as [p |] eqn:Hc.
  - by rewrite (getTemplate_hit _ _ _ _ Hc).
  - destruct (getTemplate_miss w v st Hc) as (evs & -> & _); simpl.
    apply lookup_insert_eq.
Qed.

Lemma getTemplate_other w v st b :
  b <> branchOf v ->
  templateCache (getTemplate w v st).2 !! b = templateCache st !! b.
Proof.
  intros Hb.
  destruct (templateCache st !! branchOf v) as [p |] eqn:Hc.
  - by rewrite (getTemplate_hit _ _ _ _ Hc).
  - destruct (getTemplate_miss w v st Hc) as (evs & -> & _); simpl.
    by apply lookup_insert_ne.
Qed.

Lemma getTemplate_mono w v st b p :
  templateCache st !! b = Some p ->
  templateCache (getTemplate w v st).2 !! b = Some p.
Proof.
  intros Hb. destruct (decide (b = branchOf v)) as [-> | Hne].
  - by rewrite (getTemplate_hit _ _ _ _ Hb).
  - by rewrite getTemplate_other.
Qed.

Lemma getTemplate_counted w v st :
  counted st -> counted (getTemplate w v st).2.
Proof.
  intros Hst b. specialize (Hst b).
  destruct (templateCache st !! branchOf v) as [p |] eqn:Hc.
  - rewrite (getTemplate_hit _ _ _ _ Hc); simpl.
    rewrite acquisitions_app, Hst. unfold acquisitions; simpl. lia.
  - destruct (getTemplate_miss w v st Hc) as (evs & -> & Hevs & _); simpl.
    rewrite acquisitions_app, !acquisitions_cons, Hevs, Hst; simpl.
    destruct (decide (branchOf v = b)) as [<- | Hne].
    + rewrite Hc, lookup_insert_eq, bool_decide_eq_true_2 by done. simpl. lia.
    + rewrite lookup_insert_ne, bool_decide_eq_false_2 by done. simpl. lia.
Qed.

Lemma getTemplate_resolved w v st :
  (forall folder, exists values, readFiddle w folder = Ok values) ->
  all_resolved st ->
  all_resolved (getTemplate w v st).2
  /\ exists values, settled (getTemplate w v st).1 = Ok values.
Proof.
  intros Hread Hst.
  destruct (templateCache st !! branchOf v) as [p |] eqn:Hc.
  - rewrite (getTemplate_hit _ _ _ _ Hc); simpl. split; [exact Hst | eauto].
  - destruct (getTemplate_miss w v st Hc) as (evs & -> & _); simpl.
    split; [| apply Hread].
    intros b p. simpl. destruct (decide (branchOf v = b)) as [<- | Hne].
    + rewrite lookup_insert_eq. intros [= <-]. apply Hread.
    + rewrite lookup_insert_ne by done. apply Hst.
Qed.

(** *** Runs *)

Lemma run_cons w v rest st :
  run ((w, v) :: rest) st
  = ((getTemplate w v st).1 :: (run rest (getTemplate w v st).2).1,
     (run rest (getTemplate w v st).2).2).
Proof.
  simpl. destruct (getTemplate w v st) as [p st1]; simpl.
  by destruct (run rest st1).
Qed.

Lemma run_snoc calls w v st :
  run (calls ++ [(w, v)]) st
  = ((run calls st).1 ++ [(getTemplate w v (run calls st).2).1],
     (getTemplate w v (run calls st).2).2).
Proof.
  revert st. induction calls as [| [w0 v0] calls IH]; intros st.
  - simpl. by destruct (getTemplate w v st).
  - rewrite <- app_comm_cons, !run_cons, IH. done.
Qed.

Lemma run_counted calls st : counted st -> counted (run calls st).2.
Proof.
  revert st. induction calls as [| [w v] calls IH]; intros st Hst; [done |].
  rewrite run_cons; simpl. by apply IH, getTemplate_counted.
Qed.

Lemma run_mono calls st b p :
  templateCache st !! b = Some p ->
  templateCache (run calls st).2 !! b = Some p.
Proof.
  revert st. induction calls as [| [w v] calls IH]; intros st Hst; [done |].
  rewrite run_cons; simpl. by apply IH, getTemplate_mono.
Qed.

Lemma run_stored calls st i w v p :
  calls !! i = Some (w, v) ->
  (run calls st).1 !! i = Some p ->
  templateCache (run calls st).2 !! branchOf v = Some p.
Proof.
  revert st i. induction calls as [| [w0 v0] calls IH]; intros st i; [done |].
  rewrite run_cons. destruct i as [| i]; simpl.
  - intros [= -> ->] [= <-]. apply run_mono, getTemplate_stored.
  - apply IH.
Qed.

Lemma run_cached calls st b :
  is_Some (templateCache (run calls st).2 !! b)
  <-> is_Some (templateCache st !! b) \/ b ∈ (fun c => branchOf c.2) <$> calls.
Proof.
  revert st. induction calls as [| [w v] calls IH]; intros st.
  - simpl. rewrite elem_of_nil. intuition.
  - rewrite run_cons, fmap_cons, elem_of_cons; simpl. rewrite IH.
    destruct (decide (b = branchOf v)) as [-> | Hne].
    + rewrite getTemplate_stored. intuition eauto.
    + rewrite getTemplate_other by done. intuition.
Qed.

Lemma run_resolved calls st :
  Forall (fun c => forall folder, exists values, readFiddle c.1 folder = Ok values) calls ->
  all_resolved st ->
  Forall (fun p => exists values, settled p = Ok values) (run calls st).1.
Proof.
  intros Hcalls. revert st.
  induction Hcalls as [| [w v] calls Hw Hcalls IH]; intros st Hst; [constructor |].
  rewrite run_cons; simpl.
  destruct (getTemplate_resolved w v st Hw Hst) as [Hst' Hp].
  constructor; [exact Hp | by apply IH].
Qed.

Lemma initial_counted : counted initial.
Proof. intros b. unfold initial; simpl. by rewrite lookup_empty. Qed.

Lemma initial_resolved : all_resolved initial.
Proof. intros b p. unfold initial; simpl. by rewrite lookup_empty. Qed.

(** *** The rule for trying the network *)

Lemma isReleasedMajor_iff w v : isReleasedMajor w v = true <-> released_major w v.
Proof.
  unfold isReleasedMajor, released_major.
  pose proof (newestRelease_spec w) as Hnewest.
  destruct (parse v) as [parsed |]; [| split; [done | by intros (? & ? & ? & _)]].
  destruct (newestRelease w) as [n |].
  - destruct Hnewest as [Hin Hmax]. rewrite N.leb_le. split.
    + intros Hle. by exists parsed, n.
    + intros (? & newest & [= <-] & Hnew & _ & Hle).
      specialize (Hmax newest Hnew). lia.
  - split; [done |]. intros (? & newest & _ & Hnew & _).
    rewrite Hnewest in Hnew. by apply elem_of_nil in Hnew.
Qed.

Lemma not_released_major w v : ~ released_major w v -> isReleasedMajor w v = false.
Proof.
  intros H. destruct (isReleasedMajor w v) eqn:E; [| done].
  by apply isReleasedMajor_iff in E.
Qed.

(** *** The cache key *)

Lemma branch_not_master s : s +:+ "-x-y" <> "master".
Proof.
  intros H.
  do 7 (destruct s as [| ? s]; simpl in H; [discriminate H |]).
  discriminate H.
Qed.

(** *** Counting the loads *)

Lemma prepares_app b tr1 tr2 :
  prepares b (tr1 ++ tr2) = (prepares b tr1 + prepares b tr2)%nat.
Proof. unfold prepares. by rewrite List.filter_app, length_app. Qed.

Lemma prepares_cons b e tr :
  prepares b (e :: tr) = ((if is_prepare b e then 1 else 0) + prepares b tr)%nat.
Proof. unfold prepares; simpl. by destruct (is_prepare b e). Qed.

Lemma reads_app tr1 tr2 : reads (tr1 ++ tr2) = (reads tr1 + reads tr2)%nat.
Proof. unfold reads. by rewrite List.filter_app, length_app. Qed.

Lemma reads_cons e tr :
  reads (e :: tr) = ((if is_read e then 1 else 0) + reads tr)%nat.
Proof. unfold reads; simpl. by destruct (is_read e). Qed.

(** [prepareTemplate] is entered once, calls itself for no branch and reads
    no fiddle. *)
Lemma prepareTemplate_loads w branch tr :
  exists evs,
    prepareTemplate w branch tr
    = (Ok (if download_fails w branch then STATIC_TEMPLATE_DIR
           else template_folder branch),
       tr ++ call_prepareTemplate branch :: evs)
    /\ reads evs = 0%nat
    /\ forall b, prepares b evs = 0%nat.
Proof.
  unfold Content.prepareTemplate, Content.download_fails.
  unfold bind, emit, call, try_catch, ret, throw, lift.
  destruct (fancyImport w "fs-extra") as [[] | e0]; simpl.
  2: { eexists. rewrite <- !app_assoc. simpl. split; [reflexivity | done]. }
  destruct (existsSync w _); simpl.
  { eexists. rewrite <- !app_assoc. simpl. split; [reflexivity | done]. }
  destruct (fetch w _) as [response | e1]; simpl.
  2: { eexists. rewrite <- !app_assoc. simpl. split; [reflexivity | done]. }
  destruct (ok response); simpl.
  2: { eexists. rewrite <- !app_assoc. simpl. split; [reflexivity | done]. }
  destruct (arrayBuffer response) as [buffer | e2]; simpl.
  2: { eexists. rewrite <- !app_assoc. simpl. split; [reflexivity | done]. }
  destruct (ensureDir w _) as [[] | e3]; simpl.
  2: { eexists. rewrite <- !app_assoc. simpl. split; [reflexivity | done]. }
  destruct (decompress w _ _) as [[] | e4]; simpl.
  2: { eexists. rewrite <- !app_assoc. simpl. split; [reflexivity | done]. }
  eexists. rewrite <- !app_assoc. simpl. split; [reflexivity | done].
Qed.

(** A call that finds no entry reads one fiddle, after one call of
    [prepareTemplate] for its branch when the version is released, and
    directly from the static folder otherwise. *)
Lemma getTemplate_miss_loads w v st :
  templateCache st !! branchOf v = None ->
  exists evs,
    trace (getTemplate w v st).2 = trace st ++ evs
    /\ reads evs = 1%nat
    /\ prepares (branchOf v) evs = (if isReleasedMajor w v then 1 else 0)%nat
    /\ (forall b, b <> branchOf v -> prepares b evs = 0%nat)
    /\ (isReleasedMajor w v = false ->
        evs = [call_getTemplate v; log_loading (branchOf v);
               acquire (branchOf v) false; call_readFiddle STATIC_TEMPLATE_DIR]).
Proof.
  intros Hmiss. unfold Content.getTemplate. rewrite Hmiss.
  unfold bind at 1. unfold emit at 1.
  destruct (isReleasedMajor w v); simpl.
  - unfold bind at 1. unfold emit at 1. unfold bind.
    destruct (prepareTemplate_loads w (branchOf v)
                (((trace st ++ [call_getTemplate v]) ++ [log_loading (branchOf v)])
                   ++ [acquire (branchOf v) true]))
      as (evs & -> & Hreads & Hprepares).
    unfold call_to_readFiddle, call. simpl.
    eexists. split; [rewrite <- !app_assoc; simpl; reflexivity |].
    rewrite !reads_cons, !prepares_cons, reads_app, prepares_app, Hreads, Hprepares.
    simpl. rewrite bool_decide_eq_true_2 by done.
    split; [done | split; [done | split; [| done]]].
    intros b Hb. rewrite !prepares_cons, prepares_app, Hprepares. simpl.
    by rewrite bool_decide_eq_false_2.
  - unfold bind, emit, call_to_readFiddle, call. simpl.
    eexists. split; [rewrite <- !app_assoc; simpl; reflexivity |].
    split; [done | split; [done | split; [| done]]].
    intros b Hb. done.
Qed.

Lemma getTemplate_loads w v st :
  (forall b, (prepares b (trace st)
              <= match templateCache st !! b with Some _ => 1 | None => 0 end)%nat) ->
  reads (trace st) = size (templateCache st) ->
  (forall b, (prepares b (trace (getTemplate w v st).2)
              <= match templateCache (getTemplate w v st).2 !! b with
                 | Some _ => 1 | None => 0 end)%nat)
  /\ reads (trace (getTemplate w v st).2) = size (templateCache (getTemplate w v st).2).
Proof.
  intros Hprep Hreads.
  destruct (templateCache st !! branchOf v) as [p |] eqn:Hc.
  - rewrite (getTemplate_hit _ _ _ _ Hc); simpl. split.
    + intros b. rewrite prepares_app. specialize (Hprep b).
      unfold prepares at 2; simpl. lia.
    + rewrite reads_app, Hreads. unfold reads at 1; simpl. lia.
  - destruct (getTemplate_miss_loads w v st Hc) as (evs & Htrace & Hr & Hp & Hother & _).
    rewrite Htrace.
    destruct (getTemplate_miss w v st Hc) as (evs0 & Heq & _).
    simpl in Heq. rewrite Heq; simpl. split.
    + intros b. rewrite prepares_app. specialize (Hprep b).
      destruct (decide (b = branchOf v)) as [-> | Hne].
      * rewrite lookup_insert_eq, Hp. rewrite Hc in Hprep.
        destruct (isReleasedMajor w v); lia.
      * rewrite lookup_insert_ne, (Hother b Hne) by done. lia.
    + rewrite reads_app, Hr, Hreads, map_size_insert_None by done. lia.
Qed.

Lemma run_loads calls : forall st,
  (forall b, (prepares b (trace st)
              <= match templateCache st !! b with Some _ => 1 | None => 0 end)%nat) ->
  reads (trace st) = size (templateCache st) ->
  (forall b, (prepares b (trace (run calls st).2)
              <= match templateCache (run calls st).2 !! b with
                 | Some _ => 1 | None => 0 end)%nat)
  /\ reads (trace (run calls st).2) = size (templateCache (run calls st).2).
Proof.
  induction calls as [| [w v] calls IH]; intros st Hprep Hreads; [done |].
  rewrite run_cons; simpl.
  destruct (getTemplate_loads w v st Hprep Hreads) as [Hprep' Hreads'].
  by apply IH.
Qed.

(** The outcome of every promise of a run is one that a call of the run
    gives to a new entry, or one of an entry that was there before. *)
Lemma run_outcomes (Q : Promise -> Prop) calls : forall st,
  (forall b p, templateCache st !! b = Some p -> Q p) ->
  (forall w v st', (w, v) ∈ calls -> templateCache st' !! branchOf v = None ->
                   Q (getTemplate w v st').1) ->
  Forall Q (run calls st).1.
Proof.
  induction calls as [| [w v] calls IH]; intros st Hst Hnew; [constructor |].
  rewrite run_cons; simpl.
  assert (Hp : Q (getTemplate w v st).1).
  { destruct (templateCache st !! branchOf v) as [p |] eqn:Hc.
    - rewrite (getTemplate_hit _ _ _ _ Hc); simpl. by eapply Hst.
    - apply Hnew; [apply list_elem_of_here | done]. }
  constructor; [exact Hp |].
  apply IH.
  - intros b p Hb. destruct (decide (b = branchOf v)) as [-> | Hne].
    + rewrite getTemplate_stored in Hb. by injection Hb as <-.
    + rewrite getTemplate_other in Hb by done. by eapply Hst.
  - intros w' v' st' Hin. apply Hnew. by apply list_elem_of_further.
Qed.

(** *** The claims *)

(** C1. However many [getTemplate] calls the process makes, calls that
    resolve to the same branch return the same promise, which is the
    entry stored in the cache for that branch; a call for a branch
    requested before returns the stored entry and starts nothing; the
    first call for a branch reads one fiddle, through one call of
    [prepareTemplate] for that branch when the version is released and
    directly from the static folder otherwise; so over the whole run
    [prepareTemplate] is called at most once per branch and never for a
    branch that was not asked for, and [readFiddle] is called once per
    branch in the cache, which holds exactly the branches asked for. *)
Theorem getTemplate_once_per_branch (calls : list (World * option string)) :
  let promises := (run calls initial).1 in
  let final := (run calls initial).2 in
  (forall i j wi vi wj vj pi pj,
      calls !! i = Some (wi, vi) -> calls !! j = Some (wj, vj) ->
      branchOf vi = branchOf vj ->
      promises !! i = Some pi -> promises !! j = Some pj -> pi = pj)
  /\ (forall i w v p,
        calls !! i = Some (w, v) -> promises !! i = Some p ->
        templateCache final !! branchOf v = Some p)
  /\ (forall before w v,
        branchOf v ∈ (fun c => branchOf c.2) <$> before ->
        let st := (run before initial).2 in
        templateCache st !! branchOf v = Some (getTemplate w v st).1
        /\ templateCache (getTemplate w v st).2 = templateCache st
        /\ new_events st (getTemplate w v st).2 = [call_getTemplate v])
  /\ (forall b,
        acquisitions b (trace final)
        = if bool_decide (b ∈ (fun c => branchOf c.2) <$> calls)
          then 1%nat else 0%nat)
  /\ (forall before w v,
        branchOf v ∉ branches before ->
        let st := (run before initial).2 in
        let evs := new_events st (getTemplate w v st).2 in
        reads evs = 1%nat
        /\ prepares (branchOf v) evs = (if isReleasedMajor w v then 1 else 0)%nat
        /\ (forall b, b <> branchOf v -> prepares b evs = 0%nat)
        /\ (isReleasedMajor w v = false ->
            evs = [call_getTemplate v; log_loading (branchOf v);
                   acquire (branchOf v) false; call_readFiddle STATIC_TEMPLATE_DIR]))
  /\ (forall b,
        (prepares b (trace final) <= 1)%nat
        /\ (b ∉ branches calls -> prepares b (trace final) = 0%nat))
  /\ reads (trace final) = size (templateCache final)
  /\ (forall b, is_Some (templateCache final !! b) <-> b ∈ branches calls).
Proof.
  intros promises final. subst promises final.
  assert (Hstored : forall i w v p,
             calls !! i = Some (w, v) -> (run calls initial).1 !! i = Some p ->
             templateCache (run calls initial).2 !! branchOf v = Some p)
    by (intros; by eapply run_stored).
  assert (Hcached : forall l b,
             is_Some (templateCache (run l initial).2 !! b) <-> b ∈ branches l).
  { intros l b. rewrite run_cached. unfold initial at 1; simpl.
    rewrite lookup_empty. unfold branches. split; [| by right].
    intros [[? ?] | ?]; done. }
  destruct (run_loads calls initial) as [Hprep Hreads].
  { intros b. unfold initial; simpl. by rewrite lookup_empty. }
  { unfold initial; simpl. by rewrite map_size_empty. }
  split; [| split; [exact Hstored | split; [| split; [| split; [| split; [| split]]]]]].
  - intros i j wi vi wj vj pi pj Hi Hj Hb Hpi Hpj.
    pose proof (Hstored _ _ _ _ Hi Hpi) as H1.
    pose proof (Hstored _ _ _ _ Hj Hpj) as H2.
    rewrite Hb in H1. congruence.
  - intros before w v Hin st.
    assert (is_Some (templateCache st !! branchOf v)) as [p Hp]
      by (apply run_cached; by right).
    rewrite (getTemplate_hit _ _ _ _ Hp); simpl.
    split; [done | split; [done |]].
    by apply new_events_app.
  - intros b. rewrite (run_counted calls initial initial_counted b).
    pose proof (run_cached calls initial b) as Hc.
    unfold initial in Hc at 2; simpl in Hc. rewrite lookup_empty in Hc.
    destruct (templateCache (run calls initial).2 !! b) as [p |] eqn:E.
    + rewrite bool_decide_eq_true_2; [done |].
      destruct Hc as [[Hc | Hc] _]; [by eexists | by destruct Hc | done].
    + rewrite bool_decide_eq_false_2; [done |].
      intros Hin. destruct Hc as [_ Hc].
      destruct Hc as [? Hc]; [by right | done].
  - intros before w v Hnew st evs. subst evs.
    assert (Hmiss : templateCache st !! branchOf v = None).
    { destruct (templateCache st !! branchOf v) as [p |] eqn:E; [| done].
      exfalso. apply Hnew, Hcached. by eexists. }
    destruct (getTemplate_miss_loads w v st Hmiss) as (evs & Htrace & Hrest).
    unfold new_events. rewrite Htrace, drop_app_length. exact Hrest.
  - intros b. specialize (Hprep b). split.
    + destruct (templateCache (run calls initial).2 !! b); lia.
    + intros Hnot.
      destruct (templateCache (run calls initial).2 !! b) as [p |] eqn:E; [| lia].
      exfalso. apply Hnot, Hcached. by eexists.
  - exact Hreads.
  - apply Hcached.
Qed.

(** C2 (amended). [getTemplate] rejects only when [readFiddle] does.
    [prepareTemplate] never throws: it always returns a folder, the static
    one as soon as a step of the download fails (the import, the request,
    its status, its body, the directory, the unpacking).  A new entry
    settles as the read of the folder chosen, the downloaded one when the
    version is released and the download works, the static one otherwise;
    so every promise of a run settles as such a read in the world of one
    of its calls, and when [readFiddle] does not reject none is
    rejected. *)
Theorem getTemplate_rejects_only_with_readFiddle (calls : list (World * option string)) :
  (forall w branch tr, exists tr',
      prepareTemplate w branch tr
      = (Ok (if download_fails w branch then STATIC_TEMPLATE_DIR
             else template_folder branch), tr'))
  /\ (forall w branch tr,
        some_step_fails w branch ->
        (prepareTemplate w branch tr).1 = Ok STATIC_TEMPLATE_DIR)
  /\ (forall w v st,
        templateCache st !! branchOf v = None ->
        settled (getTemplate w v st).1 = readFiddle w (folder_read w v))
  /\ Forall (fun p => exists c, c ∈ calls
                                /\ settled p = readFiddle c.1 (folder_read c.1 c.2))
       (run calls initial).1
  /\ (Forall (fun c => forall folder, exists values, readFiddle c.1 folder = Ok values)
        calls ->
      Forall (fun p => exists values, settled p = Ok values) (run calls initial).1).
Proof.
  assert (Hnew : forall w v st,
             templateCache st !! branchOf v = None ->
             settled (getTemplate w v st).1 = readFiddle w (folder_read w v)).
  { intros w v st Hmiss.
    by destruct (getTemplate_miss w v st Hmiss) as (evs & -> & _). }
  split; [| split; [| split; [exact Hnew | split]]].
  - intros w branch tr.
    destruct (prepareTemplate_spec w branch tr) as (evs & -> & _). eauto.
  - intros w branch tr Hfails. apply download_fails_iff in Hfails.
    destruct (prepareTemplate_spec w branch tr) as (evs & -> & _).
    simpl. by rewrite Hfails.
  - apply run_outcomes.
    + intros b p. unfold initial; simpl. by rewrite lookup_empty.
    + intros w v st Hin Hmiss. exists (w, v). split; [done |]. by apply Hnew.
  - intros Hcalls. by apply run_resolved, initial_resolved.
Qed.

(** C3 (amended). On a call that finds no entry for its branch,
    [prepareTemplate] is called exactly when the version parses and its
    major is at most the major of the newest remote release of the
    catalog; otherwise, and so when the version is absent or does not
    parse, the static folder is read directly and nothing else is
    done. *)
Theorem getTemplate_network_rule w v st :
  templateCache st !! branchOf v = None ->
  let st' := (getTemplate w v st).2 in
  (network_attempted v st st' <-> released_major w v)
  /\ (~ released_major w v ->
      new_events st st'
      = [call_getTemplate v; log_loading (branchOf v);
         acquire (branchOf v) false; call_readFiddle STATIC_TEMPLATE_DIR]
      /\ settled (getTemplate w v st).1 = readFiddle w STATIC_TEMPLATE_DIR)
  /\ (parse v = None -> ~ released_major w v).
Proof.
  intros Hmiss st'. subst st'. unfold network_attempted.
  destruct (getTemplate_miss w v st Hmiss) as (evs & Heq & _ & Hevs).
  simpl in Heq. rewrite Heq; simpl.
  rewrite (new_events_app st _ _ _ _ eq_refl).
  unfold Content.folder_read.
  split; [| split].
  - rewrite <- isReleasedMajor_iff.
    destruct (isReleasedMajor w v).
    + destruct Hevs as [evs' ->]. split; [done |]. intros _.
      do 3 apply list_elem_of_further. apply list_elem_of_here.
    + rewrite Hevs. split; [| done]. intros Hin.
      repeat (apply elem_of_cons in Hin as [Hin | Hin]; [discriminate |]).
      by apply elem_of_nil in Hin.
  - intros Hno. apply not_released_major in Hno. rewrite Hno in *; simpl.
    by rewrite Hevs.
  - intros Hparse (parsed & _ & Hp & _). congruence.
Qed.

(** C4 (amended). The cache key is the major followed by [-x-y] when the
    version parses with a major other than 0; it is [master] exactly
    when the version is absent, does not parse, or has major 0.  The
    promise returned is stored under that key and no other key
    changes. *)
Theorem getTemplate_branch v :
  (forall parsed,
      parse v = Some parsed -> major parsed <> 0%N ->
      branchOf v = pretty (major parsed) +:+ "-x-y")
  /\ (branchOf v = "master"
      <-> parse v = None \/ exists parsed, parse v = Some parsed /\ major parsed = 0%N)
  /\ (forall w st,
        templateCache (getTemplate w v st).2 !! branchOf v
        = Some (getTemplate w v st).1
        /\ forall b, b <> branchOf v ->
                     templateCache (getTemplate w v st).2 !! b
                     = templateCache st !! b).
Proof.
  split; [| split].
  - intros parsed Hp Hm. unfold branchOf. rewrite Hp.
    by destruct (N.eqb_spec (major parsed) 0).
  - unfold branchOf. destruct (parse v) as [parsed |]; [| by intuition].
    destruct (N.eqb_spec (major parsed) 0) as [Hz | Hnz].
    + split; [| done]. intros _. right. by exists parsed.
    + split.
      * intros H. by apply branch_not_master in H.
      * intros [? | (p' & [= <-] & ?)]; done.
  - intros w st. split; [apply getTemplate_stored |].
    intros b Hb. by apply getTemplate_other.
Qed.

(** C10. When [window.ElectronFiddle] or its [app] is missing,
    [isContentUnchanged] answers [false] and does nothing else: no call
    to [getEditorValues], no call to [getTemplate], no exception. *)
Theorem isContentUnchanged_without_app w name st :
  window_ElectronFiddle w = None
  \/ (exists handle, window_ElectronFiddle w = Some handle /\ app handle = None) ->
  isContentUnchanged w name st = (Ok false, st)
  /\ new_events st (isContentUnchanged w name st).2 = [].
Proof.
  intros H. unfold Content.isContentUnchanged.
  assert (Hnil : new_events st st = []) by apply drop_all.
  destruct H as [-> | (handle & -> & ->)]; by split.
Qed.

End WithPaths.

(** *** The claims on the sample worlds *)

Example second_request_reuses_first :
  pid <$> (run templates_dir static_dir join sample_calls initial).1 = [0; 0; 1]%nat.
Proof. reflexivity. Qed.

Example offline_falls_back :
  (prepareTemplate templates_dir static_dir join offline "12-x-y" []).1 = Ok static_dir.
Proof. reflexivity. Qed.

(** The download works and the downloaded folder cannot be read: the
    promise of [getTemplate] is rejected, although the static folder could
    have been read. *)
Lemma unreadable_download_rejects :
  ~ never_rejects_as_stated templates_dir static_dir join unreadable (Some "12.1.0")
      initial.
Proof. intros [values H]. vm_compute in H. discriminate H. Qed.

Lemma getTemplate_rejects_only_with_readFiddle_witness :
  Forall (fun c : World * option string =>
            forall folder, exists values, readFiddle c.1 folder = Ok values)
    sample_calls
  /\ Forall (fun p => exists values, settled p = Ok values)
       (run templates_dir static_dir join sample_calls initial).1.
Proof.
  assert (H : Forall (fun c : World * option string =>
                        forall folder, exists values, readFiddle c.1 folder = Ok values)
                sample_calls)
    by (repeat constructor; intros folder; exists quick_start; reflexivity).
  split; [exact H |].
  exact (proj2 (proj2 (proj2 (proj2
           (getTemplate_rejects_only_with_readFiddle templates_dir static_dir join
              sample_calls)))) H).
Defined.

(** With a remote release 12.0.0 in the catalog and no version given, the
    rule as stated asks for the network, and [getTemplate] reads the static
    folder without calling [prepareTemplate]. *)
Lemma absent_version_reads_static :
  ~ network_rule_as_stated templates_dir static_dir join online None initial.
Proof.
  unfold network_rule_as_stated. intros [_ H].
  specialize (H (or_introl eq_refl)).
  unfold network_attempted in H. vm_compute in H.
  repeat (apply elem_of_cons in H as [H | H]; [discriminate H |]).
  by apply elem_of_nil in H.
Qed.

Lemma getTemplate_network_rule_witness :
  templateCache initial !! branchOf (Some "12.1.0") = None
  /\ (let st' := (getTemplate templates_dir static_dir join online (Some "12.1.0")
                    initial).2 in
      (network_attempted (Some "12.1.0") initial st'
       <-> released_major online (Some "12.1.0"))
      /\ (~ released_major online (Some "12.1.0") ->
          new_events initial st'
          = [call_getTemplate (Some "12.1.0"); log_loading (branchOf (Some "12.1.0"));
             acquire (branchOf (Some "12.1.0")) false; call_readFiddle static_dir]
          /\ settled (getTemplate templates_dir static_dir join online (Some "12.1.0")
                        initial).1
             = readFiddle online static_dir)
      /\ (parse (Some "12.1.0") = None -> ~ released_major online (Some "12.1.0"))).
Proof.
  split; [reflexivity |].
  apply (getTemplate_network_rule templates_dir static_dir join online (Some "12.1.0")
           initial).
  reflexivity.
Defined.

(** Version 0.37.0 parses, its major is 0, and its cache key is [master],
    not [0-x-y]. *)
Lemma major_zero_is_master : ~ branch_rule_as_stated (Some "0.37.0").
Proof.
  unfold branch_rule_as_stated. intros [H _].
  specialize (H (mkSemVer "0.37.0" 0 37 0 [] []) eq_refl).
  vm_compute in H. discriminate H.
Qed.

Lemma isContentUnchanged_without_app_witness :
  (window_ElectronFiddle online = None
   \/ (exists handle, window_ElectronFiddle online = Some handle /\ app handle = None))
  /\ (isContentUnchanged templates_dir static_dir join online "main.js" initial
      = (Ok false, initial)
      /\ new_events initial
           (isContentUnchanged templates_dir static_dir join online "main.js" initial).2
         = []).
Proof.
  split; [left; reflexivity |].
  apply (isContentUnchanged_without_app templates_dir static_dir join online "main.js"
           initial).
  left; reflexivity.
Defined.

End Content_facts.
(** ** Facts about the command-line module *)

Module CommandLine_facts.

Import CommandLine.

#[local] Arguments String.append !_ _ / : simpl nomatch.

(** *** Strings *)

Lemma append_assoc (a b c : string) : (a +:+ b) +:+ c = a +:+ (b +:+ c).
Proof. induction a as [| x a IH]; simpl; [done | by rewrite IH]. Qed.

Lemma take_append n : forall mid post,
  String.length mid = n -> Str.take n (mid +:+ post) = mid.
Proof.
  induction n as [| n IH]; intros [| c mid] post Hlen; simpl in *; try done.
  f_equal. apply IH. lia.
Qed.

Lemma take_prefix n : forall s, exists post, s = Str.take n s +:+ post.
Proof.
  induction n as [| n IH]; intros s; simpl.
  - by exists s.
  - destruct s as [| c s]; [by exists EmptyString |].
    destruct (IH s) as [post Hpost]. exists post. simpl. by rewrite <- Hpost.
Qed.

Lemma hex32_here_iff s :
  hex32_here s = true <-> exists mid post, s = mid +:+ post /\ is_gist_id mid.
Proof.
  unfold hex32_here, is_gist_id. rewrite andb_true_iff, Nat.eqb_eq. split.
  - intros [Hlen Hhex]. destruct (take_prefix 32 s) as [post Hpost].
    by exists (Str.take 32 s), post.
  - intros (mid & post & -> & Hlen & Hhex). by rewrite take_append.
Qed.

(** The unanchored expression matches exactly the strings that contain 32
    hexadecimal characters in a row. *)
Lemma matches_hex32_iff s : matches_hex32 s = true <-> contains_gist_id s.
Proof.
  unfold contains_gist_id. induction s as [| c s IH].
  - split; [discriminate |].
    intros (pre & mid & post & H & Hlen & _).
    destruct pre; [| discriminate H]. by destruct mid.
  - change (matches_hex32 (String c s))
      with (hex32_here (String c s) || matches_hex32 s)%bool.
    rewrite orb_true_iff, hex32_here_iff, IH. split.
    + intros [(mid & post & H & Hid) | (pre & mid & post & H & Hid)].
      * by exists EmptyString, mid, post.
      * exists (String c pre), mid, post. simpl. by rewrite <- H.
    + intros (pre & mid & post & H & Hid). destruct pre as [| c' pre].
      * left. by exists mid, post.
      * right. simpl in H. injection H as -> ->. by exists pre, mid, post.
Qed.

Lemma is_gist_id_contains id : is_gist_id id -> contains_gist_id id.
Proof.
  intros H. exists EmptyString, id, EmptyString. split; [| done].
  simpl. clear H. induction id as [| c id IH]; simpl; [done | by rewrite <- IH].
Qed.

(** *** [split] and [pop]: the final segment *)

Lemma split_nonempty sep s : Str.split sep s <> [].
Proof.
  destruct s as [| c s]; simpl; [done |].
  destruct (Ascii.eqb c sep); [done |]. by destruct (Str.split sep s).
Qed.

Lemma join_split sep s : join_with sep (Str.split sep s) = s.
Proof.
  induction s as [| c s IH]; simpl; [done |].
  pose proof (split_nonempty sep s) as Hne.
  destruct (Ascii.eqb_spec c sep) as [-> | Hc].
  - destruct (Str.split sep s) as [| w ws]; [done |].
    change (join_with sep (EmptyString :: w :: ws))
      with (String sep (join_with sep (w :: ws))).
    by rewrite IH.
  - destruct (Str.split sep s) as [| w ws]; [done |].
    rewrite <- IH. by destruct ws.
Qed.

Lemma split_no_sep sep s : Forall (no_sep sep) (Str.split sep s).
Proof.
  unfold no_sep. induction s as [| c s IH]; simpl; [by repeat constructor |].
  destruct (Ascii.eqb c sep) eqn:Hc; [by constructor |].
  destruct (Str.split sep s) as [| w ws]; [by repeat constructor; simpl; rewrite Hc |].
  inversion IH as [| ? ? Hw Hws]; subst.
  constructor; [| done]. simpl. by rewrite Hc.
Qed.

Lemma pop_snoc {A} (l : list A) x : Str.pop (l ++ [x]) = Some x.
Proof.
  unfold Str.pop. induction l as [| a l IH]; [done |].
  simpl. destruct (l ++ [x]) eqn:E; [by destruct l | done].
Qed.

Lemma pop_Some {A} (l : list A) x : Str.pop l = Some x -> exists init, l = init ++ [x].
Proof.
  destruct l as [| a l _] using rev_ind; [done |].
  rewrite pop_snoc. intros [= ->]. by exists l.
Qed.

Lemma join_snoc sep l seg :
  l <> [] -> join_with sep (l ++ [seg]) = join_with sep l +:+ String sep seg.
Proof.
  induction l as [| w l IH]; [done |]. intros _.
  destruct l as [| w' l]; [done |].
  change (join_with sep ((w :: w' :: l) ++ [seg]))
    with (w +:+ String sep (join_with sep ((w' :: l) ++ [seg]))).
  rewrite IH by done.
  change (join_with sep (w :: w' :: l))
    with (w +:+ String sep (join_with sep (w' :: l))).
  rewrite append_assoc. done.
Qed.

(** [s.split(sep).pop()] is the text after the last [sep] of [s], or the
    whole of [s] when it has none. *)
Lemma pop_split sep s :
  exists seg,
    Str.pop (Str.split sep s) = Some seg
    /\ no_sep sep seg
    /\ (s = seg \/ exists pre, s = pre +:+ String sep seg).
Proof.
  destruct (Str.pop (Str.split sep s)) as [seg |] eqn:Hpop.
  2: { apply Content_facts.pop_nil_iff in Hpop. by apply split_nonempty in Hpop. }
  exists seg. split; [done |].
  destruct (pop_Some _ _ Hpop) as [init Hinit].
  pose proof (split_no_sep sep s) as Hall. rewrite Hinit in Hall.
  apply Forall_app in Hall as [_ Hseg]. inversion Hseg; subst.
  split; [done |].
  rewrite <- (join_split sep s), Hinit.
  destruct init as [| w init]; [by left |].
  right. exists (join_with sep (w :: init)). by apply join_snoc.
Qed.

Lemma dropLast_spec c s :
  Str.endsWithChar c s = true -> s = Str.dropLast s +:+ String c EmptyString.
Proof.
  unfold Str.endsWithChar. induction s as [| a s IH]; [done |].
  destruct s as [| b s].
  - simpl. intros H. apply Ascii.eqb_eq in H. by subst.
  - intros H. change (Str.last (String a (String b s))) with (Str.last (String b s)) in H.
    change (Str.dropLast (String a (String b s)))
      with (String a (Str.dropLast (String b s))).
    simpl. f_equal. by apply IH.
Qed.

(** The text tested is the argument itself, or, for an argument that starts
    with the gist address, the text after the last slash once one trailing
    slash is removed. *)
Lemma gist_candidate_spec source :
  exists id,
    gist_candidate source = Some id
    /\ (if Str.startsWith "https://gist.github.com" source
        then exists stripped,
            (source = stripped \/ source = stripped +:+ "/")
            /\ no_sep "/" id
            /\ (stripped = id \/ exists pre, stripped = pre +:+ String "/" id)
        else id = source).
Proof.
  unfold gist_candidate.
  destruct (Str.startsWith _ source); [| by exists source].
  destruct (Str.endsWithChar "/" source) eqn:Hend.
  - destruct (pop_split "/" (Str.dropLast source)) as (seg & Hpop & Hno & Hseg).
    exists seg. split; [done |]. exists (Str.dropLast source).
    split; [right; by apply dropLast_spec | done].
  - destruct (pop_split "/" source) as (seg & Hpop & Hno & Hseg).
    exists seg. split; [done |]. exists source. split; [by left | done].
Qed.

(** *** The claims *)

(** the effects of [open] for a gist *)
Lemma open_gist_cases existsSync source id :
  existsSync source = false ->
  gist_candidate source = Some id ->
  open existsSync source
  = if matches_hex32 id
    then [ipc_once COMMAND_DONE (logWhenDone_listener (open_gist id) false);
          gist_request id]
    else [].
Proof.
  intros Hno Hid. unfold open. rewrite Hno, Hid.
  destruct id as [| c id]; [done |]. simpl truthy.
  by destruct (matches_hex32 (String c id)).
Qed.

(** What [open] does with the text it tests (the argument itself or, for a
    gist address, its final segment once one trailing slash is removed): a
    request is sent exactly when that text contains 32 hexadecimal
    characters in a row (so always when it is a 32-character hexadecimal
    string), it carries the whole text, and otherwise [open] does nothing.
    The three examples of the specification follow. *)
Theorem open_gist_rule existsSync source :
  existsSync source = false ->
  (exists id, gist_candidate source = Some id)
  /\ (forall id,
        gist_candidate source = Some id ->
        (contains_gist_id id ->
         open existsSync source
         = [ipc_once COMMAND_DONE (logWhenDone_listener (open_gist id) false);
            gist_request id])
        /\ (~ contains_gist_id id -> open existsSync source = [])
        /\ (forall id', gist_request id' ∈ open existsSync source
                        <-> id' = id /\ contains_gist_id id)
        /\ (is_gist_id id -> contains_gist_id id))
  /\ (source = "https://gist.github.com/ckerr/af3e1a018f5dcce4a2ff40004ef5bab5/"
      \/ source = "af3e1a018f5dcce4a2ff40004ef5bab5" ->
      gist_request "af3e1a018f5dcce4a2ff40004ef5bab5" ∈ open existsSync source)
  /\ (source = "not-a-gist-or-path" -> open existsSync source = []).
Proof.
  intros Hno.
  destruct (gist_candidate_spec source) as (id0 & Hid0 & _).
  split; [by exists id0 | split; [| split]].
  - intros id Hid. rewrite (open_gist_cases _ _ _ Hno Hid).
    pose proof (matches_hex32_iff id) as Hm.
    destruct (matches_hex32 id).
    + assert (contains_gist_id id) as Hc by by apply Hm.
      split; [done | split; [done | split]].
      * intros id'. unfold gist_request. split.
        -- intros Hin. apply elem_of_cons in Hin as [Hin | Hin]; [discriminate |].
           apply list_elem_of_singleton in Hin. injection Hin as ->. done.
        -- intros [-> _]. apply list_elem_of_further, list_elem_of_here.
      * done.
    + assert (~ contains_gist_id id) as Hc by (intros Hc; by apply Hm in Hc).
      split; [done | split; [done | split]].
      * intros id'. split; [by intros Hin%elem_of_nil | by intros [_ ?]].
      * intros Hg. by apply is_gist_id_contains in Hg.
  - assert (Hsent : gist_candidate source = Some "af3e1a018f5dcce4a2ff40004ef5bab5" ->
                    gist_request "af3e1a018f5dcce4a2ff40004ef5bab5"
                    ∈ open existsSync source).
    { intros Hid. rewrite (open_gist_cases _ _ _ Hno Hid).
      apply list_elem_of_further, list_elem_of_here. }
    intros [-> | ->]; by apply Hsent.
  - intros ->.
    assert (Hid : gist_candidate "not-a-gist-or-path" = Some "not-a-gist-or-path")
      by reflexivity.
    by rewrite (open_gist_cases _ _ _ Hno Hid).
Qed.

Lemma open_gist_rule_witness :
  (fun _ : string => false) "af3e1a018f5dcce4a2ff40004ef5bab5" = false
  /\ gist_request "af3e1a018f5dcce4a2ff40004ef5bab5"
     ∈ open (fun _ => false) "af3e1a018f5dcce4a2ff40004ef5bab5".
Proof.
  split; [reflexivity |].
  apply (open_gist_rule (fun _ => false) "af3e1a018f5dcce4a2ff40004ef5bab5" eq_refl).
  right; reflexivity.
Defined.

(** C5. The expression that tests the text has no anchors and the text is
    sent whole, so [open] takes more than 32-character hexadecimal strings
    for gist ids: an argument of 34 hexadecimal characters is sent with all
    34, and a gist address followed by a fragment is sent with the id and
    the fragment, where the rule of the specification asks for no action. *)
Theorem open_sends_more_than_an_id :
  let long := "af3e1a018f5dcce4a2ff40004ef5bab5ff" in
  let address :=
    "https://gist.github.com/ckerr/af3e1a018f5dcce4a2ff40004ef5bab5#file-main-js" in
  let tail := "af3e1a018f5dcce4a2ff40004ef5bab5#file-main-js" in
  (~ is_gist_id long
   /\ gist_candidate long = Some long
   /\ open (fun _ => false) long
      = [ipc_once COMMAND_DONE (logWhenDone_listener (open_gist long) false);
         gist_request long])
  /\ (~ is_gist_id tail
      /\ gist_candidate address = Some tail
      /\ open (fun _ => false) address
         = [ipc_once COMMAND_DONE (logWhenDone_listener (open_gist tail) false);
            gist_request tail])
  /\ ~ gist_rule_as_stated (fun _ => false) address.
Proof.
  intros long address tail.
  assert (Hlong : ~ is_gist_id long) by (intros [Hlen _]; discriminate Hlen).
  assert (Htail : ~ is_gist_id tail) by (intros [Hlen _]; discriminate Hlen).
  split; [by split | split; [by split |]].
  intros H. destruct (H eq_refl tail eq_refl) as [_ Hnone].
  specialize (Hnone Htail). discriminate Hnone.
Qed.

(** A string of 34 hexadecimal characters is not a 32-character hexadecimal
    string, and [open] sends a request that carries all 34. *)
Lemma longer_hex_is_sent :
  ~ gist_rule_as_stated (fun _ => false) "af3e1a018f5dcce4a2ff40004ef5bab5ff".
Proof.
  intros H.
  destruct (H eq_refl "af3e1a018f5dcce4a2ff40004ef5bab5ff" eq_refl) as [[Hsent _] _].
  assert (Hin : gist_request "af3e1a018f5dcce4a2ff40004ef5bab5ff"
                ∈ open (fun _ => false) "af3e1a018f5dcce4a2ff40004ef5bab5ff")
    by apply list_elem_of_further, list_elem_of_here.
  destruct (Hsent Hin) as [Hlen _]. discriminate Hlen.
Qed.

(** C7 (amended). For an argument that is an existing path, [open]
    registers a one-shot listener for [command-done] and sends the
    open-fiddle request; when [command-done] arrives the listener prints
    whether the command succeeded or failed and is removed; the process
    does not exit. *)
Theorem open_local_path existsSync source :
  existsSync source = true ->
  open existsSync source
  = [ipc_once COMMAND_DONE (logWhenDone_listener (open_fiddle source) false);
     ipc_send (FS_OPEN_FIDDLE [Some source])]
  /\ forall success,
      performed (after_open existsSync source success)
      = open existsSync source
        ++ [console_log (if success then Command_succeeded (open_fiddle source)
                         else Command_failed (open_fiddle source))]
      /\ listeners (after_open existsSync source success) = []
      /\ exitCode (after_open existsSync source success) = None.
Proof.
  intros Hyes. unfold after_open, open. rewrite Hyes.
  split; [done |]. by intros [].
Qed.

Lemma open_local_path_witness :
  (fun _ : string => true) "/tmp/fiddle" = true
  /\ (open (fun _ => true) "/tmp/fiddle"
      = [ipc_once COMMAND_DONE (logWhenDone_listener (open_fiddle "/tmp/fiddle") false);
         ipc_send (FS_OPEN_FIDDLE [Some "/tmp/fiddle"])]
      /\ forall success,
          performed (after_open (fun _ => true) "/tmp/fiddle" success)
          = open (fun _ => true) "/tmp/fiddle"
            ++ [console_log (if success then Command_succeeded (open_fiddle "/tmp/fiddle")
                             else Command_failed (open_fiddle "/tmp/fiddle"))]
          /\ listeners (after_open (fun _ => true) "/tmp/fiddle" success) = []
          /\ exitCode (after_open (fun _ => true) "/tmp/fiddle" success) = None).
Proof.
  split; [reflexivity |].
  exact (open_local_path (fun _ => true) "/tmp/fiddle" eq_refl).
Defined.

(** After [open] on an existing path and a successful [command-done], no
    exit code is set. *)
Lemma open_does_not_exit :
  ~ exit_rule_as_stated (fun _ => true) "/tmp/fiddle" true.
Proof. intros H. specialize (H eq_refl). discriminate H. Qed.

(** C8. When both normalized versions parse, [bisect] sends one bisect
    request after the option messages; the request carries the normalized
    versions, exchanged (with a warning) exactly when the first compares
    greater than the second, so its first version never compares greater
    than its second.  With 11.2.0 and 10.0.0 left alone by the
    normalization, the request carries 10.0.0 then 11.2.0. *)
Theorem bisect_orders_versions normalizeVersion good bad opts g b :
  semver.SemVer_new (normalizeVersion good) = Some g ->
  semver.SemVer_new (normalizeVersion bad) = Some b ->
  (exists first second gs bs warned,
      bisect normalizeVersion good bad opts
      = ((optHide opts ++ optShow opts ++ optFiddle opts) ++ warned
         ++ [ipc_on OUTPUT_ENTRY onOutputEntry;
             ipc_once BISECT_DONE bisect_listener;
             ipc_send (FIDDLE_BISECT first second)],
         Ok tt)
      /\ semver.SemVer_new first = Some gs
      /\ semver.SemVer_new second = Some bs
      /\ (semver.compare_semver gs bs <= 0)%Z
      /\ (((0 < semver.compare_semver g b)%Z
           /\ first = normalizeVersion bad /\ second = normalizeVersion good
           /\ warned = [console_warn (Swapping first second)])
          \/ ((semver.compare_semver g b <= 0)%Z
              /\ first = normalizeVersion good /\ second = normalizeVersion bad
              /\ warned = [])))
  /\ (normalizeVersion "11.2.0" = "11.2.0" ->
      normalizeVersion "10.0.0" = "10.0.0" ->
      bisect normalizeVersion "11.2.0" "10.0.0" opts
      = ((optHide opts ++ optShow opts ++ optFiddle opts)
         ++ [console_warn (Swapping "10.0.0" "11.2.0");
             ipc_on OUTPUT_ENTRY onOutputEntry;
             ipc_once BISECT_DONE bisect_listener;
             ipc_send (FIDDLE_BISECT "10.0.0" "11.2.0")],
         Ok tt)).
Proof.
  intros Hg Hb. split.
  - unfold bisect, semver.compare. rewrite Hg, Hb.
    destruct (Z.ltb_spec 0 (semver.compare_semver g b)) as [Hgt | Hle].
    + exists (normalizeVersion bad), (normalizeVersion good), b, g,
        [console_warn (Swapping (normalizeVersion bad) (normalizeVersion good))].
      repeat split; try done.
      * rewrite semver_facts.compare_semver_opp. lia.
      * left. done.
    + exists (normalizeVersion good), (normalizeVersion bad), g, b, [].
      repeat split; try done. right. done.
  - intros H1 H2. unfold bisect. by rewrite H1, H2.
Qed.

Lemma bisect_orders_versions_witness :
  semver.SemVer_new (drop_v "v11.2.0") = Some (semver.mkSemVer "11.2.0" 11 2 0 [] [])
  /\ semver.SemVer_new (drop_v "10.0.0") = Some (semver.mkSemVer "10.0.0" 10 0 0 [] [])
  /\ exists first second,
      (bisect drop_v "v11.2.0" "10.0.0" no_options).1
      = ((optHide no_options ++ optShow no_options ++ optFiddle no_options)
         ++ [console_warn (Swapping first second)]
         ++ [ipc_on OUTPUT_ENTRY onOutputEntry;
             ipc_once BISECT_DONE bisect_listener;
             ipc_send (FIDDLE_BISECT first second)])
      /\ first = "10.0.0" /\ second = "11.2.0".
Proof.
  split; [reflexivity | split; [reflexivity |]].
  destruct (bisect_orders_versions drop_v "v11.2.0" "10.0.0" no_options _ _ eq_refl eq_refl)
    as [(first & second & gs & bs & warned & Heq & _ & _ & _ & Hcase) _].
  exists first, second. rewrite Heq.
  destruct Hcase as [(_ & -> & -> & ->) | (Hle & _)].
  - split; [reflexivity | split; reflexivity].
  - exfalso. revert Hle. vm_compute. intros Hle. apply Hle. reflexivity.
Defined.

(** C9. After [test], when [run-done] arrives the process exits, with code
    0 exactly when the result is the success, and with code 1 for every
    other result. *)
Theorem test_exit_code opts result :
  exitCode (after_test opts result)
  = Some (if bool_decide (result = SUCCESS) then 0 else 1)%Z
  /\ (exitCode (after_test opts result) = Some 0%Z <-> result = SUCCESS)
  /\ (result <> SUCCESS -> exitCode (after_test opts result) = Some 1%Z)
  /\ last (performed (after_test opts result))
     = Some (app_exit (if bool_decide (result = SUCCESS) then 0 else 1)%Z).
Proof.
  assert (Hcode : exitCode (after_test opts result)
                  = Some (if bool_decide (result = SUCCESS) then 0 else 1)%Z).
  { unfold after_test, test, optFiddle, optVersion.
    destruct (opt_version opts) as [[| c v] |]; by destruct result. }
  split; [exact Hcode | split; [| split]].
  - rewrite Hcode. destruct result; simpl; split; done.
  - intros Hne. rewrite Hcode. by destruct result.
  - unfold after_test, test, optFiddle, optVersion.
    destruct (opt_version opts) as [[| c v] |]; by destruct result.
Qed.

End CommandLine_facts.


(** ** Facts about the bisect controller *)

Module Bisect_facts.

Import Bisect.

(** Halving a width of at least 2, rounding either way, lowers the
    rounded-up logarithm by at least one. *)
Lemma log2_up_half w :
  (2 <= w)%nat ->
  (S (Nat.log2_up (w / 2)) <= Nat.log2_up w)%nat
  /\ (S (Nat.log2_up (w - w / 2)) <= Nat.log2_up w)%nat.
Proof.
  intros Hw.
  assert (Hk : (0 < Nat.log2_up w)%nat)
    by (apply Nat.log2_up_lt_pow2; simpl; lia).
  destruct (Nat.log2_up_spec w) as [_ Hhi]; [lia |].
  destruct (Nat.log2_up w) as [| k] eqn:Ek; [lia |].
  rewrite Nat.pow_succ_r' in Hhi.
  pose proof (Nat.div_mod_eq w 2) as Hdiv.
  pose proof (Nat.mod_upper_bound w 2) as Hmod.
  assert (Hceil : (w - w / 2 <= 2 ^ k)%nat) by lia.
  assert (Hfloor : (w / 2 <= 2 ^ k)%nat) by lia.
  split.
  - apply le_n_S, Nat.log2_up_le_pow2; lia.
  - apply le_n_S, Nat.log2_up_le_pow2; lia.
Qed.

Section Controller.

Context {Version : Type}.
Variable versions : list Version.
Variable runner : Version -> bool.

Lemma bisect_loop_unfold good bad :
  bisect_loop versions runner good bad
  = match bisect_step versions runner good bad with
    | None => ([], (good, bad))
    | Some s =>
        let '(runs, final) := bisect_loop versions runner s.2.1 s.2.2 in
        ((s.1.1, s.1.2) :: runs, final)
    end.
Proof.
  funelim (bisect_loop versions runner good bad);
    match goal with
    | E : bisect_step _ _ _ _ = _ |- _ => by rewrite E
    end.
Qed.

(** One iteration: nothing to do on a range of width at most 1; otherwise
    the midpoint is strictly inside the range and replaces the good bound
    after a success, the bad bound after a failure. *)
Lemma bisect_step_spec good bad :
  (bad < length versions)%nat ->
  if (bad - good <=? 1)%nat
  then bisect_step versions runner good bad = None
  else exists v,
      let mid := midpoint good bad in
      versions !! mid = Some v
      /\ (good < mid)%nat /\ (mid < bad)%nat
      /\ bisect_step versions runner good bad
         = Some (mid, runner v,
                 (if runner v then mid else good, if runner v then bad else mid)).
Proof.
  intros Hbad. unfold bisect_step.
  destruct (Nat.leb_spec (bad - good) 1) as [Hle | Hgt]; [done |].
  assert (Hhalf : (0 < (bad - good) / 2 < bad - good)%nat).
  { split; [apply Nat.div_str_pos; lia | apply Nat.div_lt; lia]. }
  assert (Hmid : (midpoint good bad < length versions)%nat)
    by (unfold midpoint; lia).
  apply lookup_lt_is_Some_2 in Hmid as [v Hv].
  exists v. rewrite Hv. unfold midpoint in *.
  repeat split; try lia. by destruct (runner v).
Qed.

Lemma bisect_loop_spec n : forall good bad,
  (bad - good <= n)%nat -> (good <= bad)%nat -> (bad < length versions)%nat ->
  exists runs g b,
    bisect_loop versions runner good bad = (runs, (g, b))
    /\ narrowing versions runner runs good bad
    /\ range_after runs good bad = (g, b)
    /\ (length runs <= Nat.log2_up (bad - good))%nat
    /\ (good <= g)%nat /\ (b <= bad)%nat
    /\ (b - g = Nat.min (bad - good) 1)%nat.
Proof.
  induction n as [| n IH]; intros good bad Hn Hle Hbad.
  - rewrite bisect_loop_unfold.
    pose proof (bisect_step_spec good bad Hbad) as Hstep.
    destruct (Nat.leb_spec (bad - good) 1) as [_ | Hgt]; [| lia].
    rewrite Hstep. exists [], good, bad. simpl. repeat split; lia.
  - rewrite bisect_loop_unfold.
    pose proof (bisect_step_spec good bad Hbad) as Hstep.
    destruct (Nat.leb_spec (bad - good) 1) as [Hsmall | Hgt].
    { rewrite Hstep. exists [], good, bad. simpl. repeat split; lia. }
    destruct Hstep as (v & Hv & Hlo & Hhi & ->). cbn [fst snd].
    destruct (log2_up_half (bad - good)) as [Hfloor Hceil]; [lia |].
    set (mid := midpoint good bad) in *.
    assert (Hmid : (mid - good = (bad - good) / 2)%nat)
      by (unfold mid, midpoint; lia).
    destruct (runner v) eqn:Hrun.
    + destruct (IH mid bad) as (runs & g & b & -> & Hnar & Hafter & Hlen & Hg & Hb & Hw);
        [lia | lia | lia |].
      exists ((mid, true) :: runs), g, b. simpl.
      split; [done |]. split; [by eauto 10 |]. split; [done |].
      replace (bad - mid)%nat with (bad - good - (bad - good) / 2)%nat in Hlen by lia.
      repeat split; lia.
    + destruct (IH good mid) as (runs & g & b & -> & Hnar & Hafter & Hlen & Hg & Hb & Hw);
        [lia | lia | lia |].
      exists ((mid, false) :: runs), g, b. simpl.
      split; [done |]. split; [by eauto 10 |]. split; [done |].
      rewrite Hmid in Hlen.
      repeat split; lia.
Qed.

(** C6.  Over a list of at least two versions, the controller stops after
    at most ceil(log2(N)) runs; every run is at the index midpoint of the
    range it meets, strictly inside it, and the midpoint becomes the good
    bound after a success and the bad bound after a failure; the pair
    returned is two neighbours of the list. *)
Theorem bisect_terminates :
  (2 <= length versions)%nat ->
  exists runs good bad vg vb,
    bisect_loop versions runner 0 (length versions - 1) = (runs, (good, bad))
    /\ bisect versions runner = (runs, (Some vg, Some vb))
    /\ (length runs <= Nat.log2_up (length versions))%nat
    /\ narrowing versions runner runs 0 (length versions - 1)
    /\ range_after runs 0 (length versions - 1) = (good, bad)
    /\ bad = S good
    /\ versions !! good = Some vg /\ versions !! bad = Some vb.
Proof.
  intros HN.
  destruct (bisect_loop_spec (length versions) 0 (length versions - 1))
    as (runs & g & b & Heq & Hnar & Hafter & Hlen & Hg & Hb & Hw); [lia | lia | lia |].
  assert (Hadj : b = S g) by lia.
  destruct (lookup_lt_is_Some_2 versions g) as [vg Hvg]; [lia |].
  destruct (lookup_lt_is_Some_2 versions b) as [vb Hvb]; [lia |].
  exists runs, g, b, vg, vb.
  split; [done |]. split; [unfold bisect; by rewrite Heq, Hvg, Hvb |].
  split.
  { etrans; [exact Hlen |]. apply Nat.log2_up_le_mono. lia. }
  done.
Qed.

End Controller.

Example bisect_eight :
  bisect eight before_13 = ([(3, false); (1, true); (2, true)]%nat, (Some 12, Some 13)%nat).
Proof. reflexivity. Qed.

Lemma bisect_terminates_witness :
  (2 <= length eight)%nat
  /\ exists runs good bad vg vb,
      bisect_loop eight before_13 0 (length eight - 1) = (runs, (good, bad))
      /\ bisect eight before_13 = (runs, (Some vg, Some vb))
      /\ (length runs <= Nat.log2_up (length eight))%nat
      /\ narrowing eight before_13 runs 0 (length eight - 1)
      /\ range_after runs 0 (length eight - 1) = (good, bad)
      /\ bad = S good
      /\ eight !! good = Some vg /\ eight !! bad = Some vb.
Proof.
  assert (H : (2 <= length eight)%nat) by (simpl; lia).
  split; [exact H | exact (bisect_terminates eight before_13 H)].
Defined.

End Bisect_facts.

(** ** Further facts about the template cache *)

Module Content_more.

Import semver semver_facts Content Content_facts.

#[local] Arguments String.append !_ _ / : simpl nomatch.

(** *** Cache keys *)

Lemma length_append (a b : string) :
  String.length (a +:+ b) = (String.length a + String.length b)%nat.
Proof. induction a as [| c a IH]; simpl; [done | by rewrite IH]. Qed.

Lemma append_cancel_r (t : string) : forall s1 s2, s1 +:+ t = s2 +:+ t -> s1 = s2.
Proof.
  induction s1 as [| c s1 IH]; intros [| d s2] H; simpl in H.
  - done.
  - apply (f_equal String.length) in H. simpl in H. rewrite length_append in H. lia.
  - apply (f_equal String.length) in H. simpl in H. rewrite length_append in H. lia.
  - injection H as -> H. f_equal. by apply IH.
Qed.

(** X1. Two versions share a cache entry exactly when they have the same
    major, an absent or unparseable version counting as major 0. *)
Theorem same_branch_iff_same_major (v1 v2 : option string) :
  branchOf v1 = branchOf v2 <-> cache_key v1 = cache_key v2.
Proof.
  unfold branchOf, cache_key.
  destruct (parse v1) as [p1 |], (parse v2) as [p2 |];
    repeat match goal with
      | |- context [(major ?p =? 0)%N] => destruct (N.eqb_spec (major p) 0)
      end.
  all: split; intros H; try congruence.
  all: try (by apply branch_not_master in H).
  all: try (symmetry in H; by apply branch_not_master in H).
  apply append_cancel_r in H. by apply (inj pretty) in H.
Qed.

Section WithPaths.

Variables TEMPLATES_DIR STATIC_TEMPLATE_DIR : string.
Variable path_join : string -> string -> string.

Local Abbreviation template_folder := (Content.template_folder TEMPLATES_DIR path_join).
Local Abbreviation folder_read :=
  (Content.folder_read TEMPLATES_DIR STATIC_TEMPLATE_DIR path_join).
Local Abbreviation prepareTemplate :=
  (Content.prepareTemplate TEMPLATES_DIR STATIC_TEMPLATE_DIR path_join).
Local Abbreviation getTemplate :=
  (Content.getTemplate TEMPLATES_DIR STATIC_TEMPLATE_DIR path_join).
Local Abbreviation isContentUnchanged :=
  (Content.isContentUnchanged TEMPLATES_DIR STATIC_TEMPLATE_DIR path_join).
Local Abbreviation run := (Content.run TEMPLATES_DIR STATIC_TEMPLATE_DIR path_join).
Local Abbreviation getTemplate_hit :=
  (Content_facts.getTemplate_hit TEMPLATES_DIR STATIC_TEMPLATE_DIR path_join).
Local Abbreviation getTemplate_miss :=
  (Content_facts.getTemplate_miss TEMPLATES_DIR STATIC_TEMPLATE_DIR path_join).
Local Abbreviation run_cons :=
  (Content_facts.run_cons TEMPLATES_DIR STATIC_TEMPLATE_DIR path_join).
Local Abbreviation run_mono :=
  (Content_facts.run_mono TEMPLATES_DIR STATIC_TEMPLATE_DIR path_join).
Local Abbreviation run_stored :=
  (Content_facts.run_stored TEMPLATES_DIR STATIC_TEMPLATE_DIR path_join).

(** *** [prepareTemplate] *)

(** X2. When the import succeeds and the folder of the branch is on disk,
    [prepareTemplate] returns that folder after the import and the
    existence check alone: no request, no directory created, nothing
    unpacked. *)
Theorem prepareTemplate_on_disk w branch tr :
  fancyImport w "fs-extra" = Ok tt ->
  existsSync w (template_folder branch) = true ->
  prepareTemplate w branch tr
  = (Ok (template_folder branch),
     tr ++ [call_prepareTemplate branch; call_import "fs-extra";
            call_existsSync (template_folder branch)]).
Proof.
  intros Himport Hdisk.
  unfold Content.prepareTemplate, bind, emit, call, try_catch, ret.
  rewrite Himport, Hdisk. simpl. by rewrite <- !app_assoc.
Qed.

Ltac elem_cases H :=
  repeat match type of H with
    | _ ∈ [] => by apply elem_of_nil in H
    | _ ∈ _ :: _ => apply elem_of_cons in H; destruct H as [H | H]; [try discriminate H |]
    end.


(** *** A catalog without remote releases *)

Lemma only_local_no_release w : only_local w -> remote_releases w = [].
Proof.
  unfold only_local, remote_releases.
  induction 1 as [| v l Hv Hl IH]; [done |].
  simpl. unfold is_remote at 1. by rewrite Hv.
Qed.

Lemma only_local_not_released w v : only_local w -> isReleasedMajor w v = false.
Proof.
  intros Hw. unfold isReleasedMajor, newestRelease.
  rewrite (only_local_no_release w Hw). simpl. by destruct (parse v).
Qed.

Lemma absent_not_released w : isReleasedMajor w None = false.
Proof. reflexivity. Qed.

(** what one call adds to the trace when the version is not released *)
Lemma getTemplate_not_released w v st :
  isReleasedMajor w v = false ->
  exists evs,
    trace (getTemplate w v st).2 = trace st ++ evs
    /\ Forall (fun e => is_download_step e = false) evs
    /\ (templateCache st !! branchOf v = None ->
        settled (getTemplate w v st).1 = readFiddle w STATIC_TEMPLATE_DIR)
    /\ (forall folder, call_readFiddle folder ∈ evs -> folder = STATIC_TEMPLATE_DIR).
Proof.
  intros Hno.
  destruct (templateCache st !! branchOf v) as [p |] eqn:Hc.
  - rewrite (getTemplate_hit _ _ _ _ Hc); simpl.
    exists [call_getTemplate v]. split; [done | split; [| split; [done |]]].
    + by repeat constructor.
    + intros folder H. apply list_elem_of_singleton in H. discriminate H.
  - destruct (getTemplate_miss w v st Hc) as (evs & Heq & _ & Hevs).
    simpl in Heq. rewrite Heq; simpl. rewrite Hno in *. subst evs.
    eexists. split; [reflexivity | split; [by repeat constructor | split]].
    + intros _. unfold Content.folder_read. by rewrite Hno.
    + intros folder H.
      repeat (apply elem_of_cons in H; destruct H as [H | H]; [try discriminate H |]).
      * by injection H as ->.
      * by apply elem_of_nil in H.
Qed.

(** X4. While every version of the catalog is a local one, [getTemplate]
    takes no step of the download path, whatever version is asked for;
    every fiddle read is the static folder; and every promise returned
    settles as the read of the static folder in the world of one of the
    calls. *)
Theorem unfetched_catalog_stays_local (calls : list (World * option string)) :
  Forall (fun c => only_local c.1) calls ->
  Forall (fun e => is_download_step e = false) (trace (run calls initial).2)
  /\ (forall folder,
        call_readFiddle folder ∈ trace (run calls initial).2 ->
        folder = STATIC_TEMPLATE_DIR)
  /\ Forall (fun p => exists c, c ∈ calls
                                /\ settled p = readFiddle c.1 STATIC_TEMPLATE_DIR)
       (run calls initial).1.
Proof.
  intros Hcalls.
  assert (Hgen : forall st,
             Forall (fun e => is_download_step e = false) (trace st) ->
             (forall folder, call_readFiddle folder ∈ trace st ->
                             folder = STATIC_TEMPLATE_DIR) ->
             Forall (fun e => is_download_step e = false) (trace (run calls st).2)
             /\ (forall folder, call_readFiddle folder ∈ trace (run calls st).2 ->
                                folder = STATIC_TEMPLATE_DIR)).
  { induction Hcalls as [| [w v] calls Hw Hcalls IH]; intros st Htr Hfolders.
    - by split.
    - rewrite run_cons; simpl in *.
      pose proof (only_local_not_released w v Hw) as Hno.
      destruct (getTemplate_not_released w v st Hno)
        as (evs & Htrace & Hevs & _ & Hread).
      apply IH.
      + rewrite Htrace. by apply Forall_app.
      + intros folder. rewrite Htrace, elem_of_app. intros [H | H]; auto. }
  destruct (Hgen initial) as [Hsteps Hfolders]; [constructor | |].
  { intros folder H. by apply elem_of_nil in H. }
  split; [exact Hsteps | split; [exact Hfolders |]].
  apply (Content_facts.run_outcomes TEMPLATES_DIR STATIC_TEMPLATE_DIR path_join).
  - intros b p. unfold initial; simpl. by rewrite lookup_empty.
  - intros w v st Hin Hmiss. exists (w, v). split; [done |].
    assert (Hw : only_local w).
    { rewrite Forall_forall in Hcalls. exact (Hcalls (w, v) Hin). }
    destruct (getTemplate_not_released w v st (only_local_not_released w v Hw))
      as (evs & _ & _ & Hnew & _).
    by apply Hnew.
Qed.

(** *** The identity of the entries *)




(** *** No retry *)


(** *** [isContentUnchanged] with the application present *)

(** X7. With the application present and its editor values read,
    [isContentUnchanged] compares the value of the editor with the entry of
    the branch [master], whatever versions were asked for before: the one
    in the cache when there is one, which it leaves alone, and otherwise a
    read of the static folder.  A file that neither has counts as
    unchanged. *)
Theorem isContentUnchanged_compares_with_master w name st handle a values :
  window_ElectronFiddle w = Some handle ->
  app handle = Some a ->
  getEditorValues a = Ok values ->
  (forall p template,
      templateCache st !! "master" = Some p -> settled p = Ok template ->
      (isContentUnchanged w name st).1
      = Ok (bool_decide (values !! name = template !! name))
      /\ templateCache (isContentUnchanged w name st).2 = templateCache st)
  /\ (forall template,
        templateCache st !! "master" = None ->
        readFiddle w STATIC_TEMPLATE_DIR = Ok template ->
        (isContentUnchanged w name st).1
        = Ok (bool_decide (values !! name = template !! name)))
  /\ (forall p template,
        templateCache st !! "master" = Some p -> settled p = Ok template ->
        values !! name = None -> template !! name = None ->
        (isContentUnchanged w name st).1 = Ok true).
Proof.
  intros Hwin Happ Hvalues.
  unfold Content.isContentUnchanged, Content.getContent.
  rewrite Hwin, Happ, Hvalues.
  set (st1 := {| templateCache := templateCache st; nextPid := nextPid st;
                 trace := trace st ++ [call_getEditorValues] |}).
  assert (Hhit : forall p template,
             templateCache st !! "master" = Some p -> settled p = Ok template ->
             (let '(p0, st') := getTemplate w None st1 in
              match settled p0 with
              | Ok values0 => (Ok (values0 !! name), st')
              | Throw e => (Throw e, st')
              end)
             = (Ok (template !! name),
                {| templateCache := templateCache st; nextPid := nextPid st;
                   trace := trace st1 ++ [call_getTemplate None] |})).
  { intros p template Hp Hsettled.
    rewrite (getTemplate_hit w None st1 p Hp). by rewrite Hsettled. }
  split; [| split].
  - intros p template Hp Hsettled. by rewrite (Hhit p template Hp Hsettled).
  - intros template Hnone Hread.
    destruct (getTemplate_miss w None st1 Hnone) as (evs & Heq & _).
    simpl in Heq. rewrite Heq; simpl.
    unfold Content.folder_read. rewrite absent_not_released; simpl.
    by rewrite Hread.
  - intros p template Hp Hsettled Hv Ht.
    rewrite (Hhit p template Hp Hsettled); simpl.
    rewrite Hv, Ht. done.
Qed.

(** X8. [isContentUnchanged] never takes a step of the download path: it
    asks for the template without a version, which is served from the cache
    or read from the static folder. *)
Theorem isContentUnchanged_never_downloads w name st :
  Forall (fun e => is_download_step e = false)
    (new_events st (isContentUnchanged w name st).2).
Proof.
  assert (Hsame : new_events st st = []) by apply drop_all.
  unfold Content.isContentUnchanged, Content.getContent.
  destruct (window_ElectronFiddle w) as [handle |];
    [| simpl; rewrite Hsame; constructor].
  destruct (app handle) as [a |]; [| simpl; rewrite Hsame; constructor].
  set (st1 := {| templateCache := templateCache st; nextPid := nextPid st;
                 trace := trace st ++ [call_getEditorValues] |}).
  destruct (getEditorValues a) as [values | e].
  2: { simpl. unfold new_events; simpl. rewrite drop_app_length. by repeat constructor. }
  destruct (getTemplate_not_released w None st1 (absent_not_released w))
    as (evs & Htrace & Hevs & _).
  destruct (getTemplate w None st1) as [p st2] eqn:Hcall. simpl in Htrace.
  assert (Hnew : new_events st st2 = call_getEditorValues :: evs).
  { unfold new_events. rewrite Htrace. simpl.
    rewrite <- app_assoc. apply drop_app_length. }
  destruct (settled p); simpl; rewrite Hnew; by constructor.
Qed.

(** X17. With the application present, [isContentUnchanged] does not
    answer [false] on a failure, it rejects: with the error of
    [getEditorValues], before any template is asked for, or with the error
    the entry of [master] was rejected with. *)
Theorem isContentUnchanged_propagates_failures w name st handle a :
  window_ElectronFiddle w = Some handle ->
  app handle = Some a ->
  (forall e,
      getEditorValues a = Throw e ->
      (isContentUnchanged w name st).1 = Throw e
      /\ templateCache (isContentUnchanged w name st).2 = templateCache st
      /\ new_events st (isContentUnchanged w name st).2 = [call_getEditorValues])
  /\ (forall values p e,
        getEditorValues a = Ok values ->
        templateCache st !! "master" = Some p -> settled p = Throw e ->
        (isContentUnchanged w name st).1 = Throw e)
  /\ (forall values e,
        getEditorValues a = Ok values ->
        templateCache st !! "master" = None ->
        readFiddle w STATIC_TEMPLATE_DIR = Throw e ->
        (isContentUnchanged w name st).1 = Throw e).
Proof.
  intros Hwin Happ.
  unfold Content.isContentUnchanged, Content.getContent. rewrite Hwin, Happ.
  set (st1 := {| templateCache := templateCache st; nextPid := nextPid st;
                 trace := trace st ++ [call_getEditorValues] |}).
  split; [| split].
  - intros e ->. simpl. split; [done | split; [done |]].
    unfold new_events; simpl. apply drop_app_length.
  - intros values p e -> Hp Hsettled.
    rewrite (getTemplate_hit w None st1 p Hp). by rewrite Hsettled.
  - intros values e -> Hnone Hread.
    destruct (getTemplate_miss w None st1 Hnone) as (evs & Heq & _).
    simpl in Heq. rewrite Heq; simpl.
    unfold Content.folder_read. rewrite absent_not_released; simpl.
    by rewrite Hread.
Qed.

End WithPaths.

(** *** [isReleasedMajor] and the catalog *)

Lemma elem_of_non_null {A} (l : list (option A)) x : x ∈ non_null l <-> Some x ∈ l.
Proof.
  unfold non_null. induction l as [| [a |] l IH]; simpl.
  - by rewrite !elem_of_nil.
  - rewrite !elem_of_cons, IH. split; [intros [-> | ?]; auto | intros [[= ->] | ?]; auto].
  - rewrite elem_of_cons, IH. split; [auto | intros [[=] | ?]; auto].
Qed.

(** the parsed remote releases, read off the catalog *)
Lemma elem_of_remote_releases w r :
  r ∈ remote_releases w
  <-> exists e, e ∈ getElectronVersions w /\ source e = remote
                /\ parse (Some (version e)) = Some r.
Proof.
  unfold remote_releases. rewrite elem_of_non_null, list_elem_of_In, in_map_iff.
  split.
  - intros (e & He & Hin). apply filter_In in Hin as [Hin Hrem].
    exists e. rewrite list_elem_of_In. split; [done | split; [| done]].
    unfold is_remote in Hrem. by destruct (source e).
  - intros (e & Hin & Hsrc & He). exists e. split; [done |].
    apply filter_In. rewrite <- list_elem_of_In. split; [done |].
    unfold is_remote. by rewrite Hsrc.
Qed.

(** X18. The decision to try the network only grows: a version that counts
    as released still does when versions are added to the catalog, and
    every version that parses with a major not above it counts as released
    too. *)
Theorem isReleasedMajor_monotone w w' v v' parsed parsed' :
  isReleasedMajor w v = true ->
  parse v = Some parsed ->
  (forall e, e ∈ getElectronVersions w -> e ∈ getElectronVersions w') ->
  parse v' = Some parsed' ->
  (major parsed' <= major parsed)%N ->
  isReleasedMajor w' v' = true.
Proof.
  intros Hrel Hv Hsub Hv' Hle.
  apply isReleasedMajor_iff in Hrel as (p & newest & Hp & Hin & _ & Hmajor).
  assert (p = parsed) as -> by congruence.
  assert (Hin' : newest ∈ remote_releases w').
  { apply elem_of_remote_releases in Hin as (e & He & Hsrc & Hparse).
    apply elem_of_remote_releases. exists e. auto. }
  pose proof (newestRelease_spec w') as Hspec.
  unfold isReleasedMajor. rewrite Hv'.
  destruct (newestRelease w') as [n |].
  - destruct Hspec as [_ Hmax]. specialize (Hmax newest Hin').
    apply N.leb_le. lia.
  - rewrite Hspec in Hin'. by apply elem_of_nil in Hin'.
Qed.

(** *** Witnesses on the sample worlds *)

Lemma isContentUnchanged_propagates_failures_witness :
  (window_ElectronFiddle broken_editors
   = Some {| app := Some {| getEditorValues := Throw "Error: editor disposed" |} |}
   /\ (isContentUnchanged templates_dir static_dir join broken_editors "main.js" initial).1
      = Throw "Error: editor disposed"
   /\ new_events initial
        (isContentUnchanged templates_dir static_dir join broken_editors "main.js"
           initial).2
      = [call_getEditorValues])
  /\ (window_ElectronFiddle broken_static
      = Some {| app := Some {| getEditorValues := Ok quick_start |} |}
      /\ readFiddle broken_static static_dir = Throw "ENOENT: no such file or directory"
      /\ (isContentUnchanged templates_dir static_dir join broken_static "main.js"
            initial).1
         = Throw "ENOENT: no such file or directory").
Proof.
  split.
  - split; [reflexivity |].
    destruct (proj1 (isContentUnchanged_propagates_failures templates_dir static_dir join
                       broken_editors "main.js" initial _ _ eq_refl eq_refl)
                "Error: editor disposed" eq_refl) as (Hresult & _ & Hevents).
    split; [exact Hresult | exact Hevents].
  - split; [reflexivity | split; [reflexivity |]].
    exact (proj2 (proj2 (isContentUnchanged_propagates_failures templates_dir static_dir
                           join broken_static "main.js" initial _ _ eq_refl eq_refl))
             quick_start "ENOENT: no such file or directory" eq_refl eq_refl eq_refl).
Defined.

Lemma isReleasedMajor_monotone_witness :
  isReleasedMajor online (Some "12.1.0") = true
  /\ isReleasedMajor online (Some "11.0.0-beta.1") = true.
Proof.
  split; [reflexivity |].
  apply (isReleasedMajor_monotone online online (Some "12.1.0") (Some "11.0.0-beta.1")
           (mkSemVer "12.1.0" 12 1 0 [] [])
           (mkSemVer "11.0.0-beta.1" 11 0 0 [IStr "beta"; INum 1] []));
    [reflexivity | reflexivity | done | reflexivity | vm_compute; discriminate].
Defined.

Lemma prepareTemplate_on_disk_witness :
  fancyImport downloaded "fs-extra" = Ok tt
  /\ existsSync downloaded (template_folder templates_dir join "12-x-y") = true
  /\ prepareTemplate templates_dir static_dir join downloaded "12-x-y" []
     = (Ok (template_folder templates_dir join "12-x-y"),
        [] ++ [call_prepareTemplate "12-x-y"; call_import "fs-extra";
               call_existsSync (template_folder templates_dir join "12-x-y")]).
Proof.
  split; [reflexivity | split; [reflexivity |]].
  exact (prepareTemplate_on_disk templates_dir static_dir join downloaded "12-x-y" []
           eq_refl eq_refl).
Defined.

Lemma unfetched_catalog_stays_local_witness :
  Forall (fun c : World * option string => only_local c.1)
    [(unfetched, Some "999.0.0"); (unfetched, Some "12.0.0")]
  /\ (Forall (fun e => is_download_step e = false)
        (trace (run templates_dir static_dir join
                  [(unfetched, Some "999.0.0"); (unfetched, Some "12.0.0")] initial).2)
      /\ (forall folder,
            call_readFiddle folder
            ∈ trace (run templates_dir static_dir join
                       [(unfetched, Some "999.0.0"); (unfetched, Some "12.0.0")]
                       initial).2 ->
            folder = static_dir)
      /\ Forall (fun p => exists c,
                     c ∈ [(unfetched, Some "999.0.0"); (unfetched, Some "12.0.0")]
                     /\ settled p = readFiddle c.1 static_dir)
           (run templates_dir static_dir join
              [(unfetched, Some "999.0.0"); (unfetched, Some "12.0.0")] initial).1).
Proof.
  assert (H : Forall (fun c : World * option string => only_local c.1)
                [(unfetched, Some "999.0.0"); (unfetched, Some "12.0.0")])
    by (repeat constructor).
  split; [exact H |].
  exact (unfetched_catalog_stays_local templates_dir static_dir join _ H).
Defined.


Lemma isContentUnchanged_compares_with_master_witness :
  window_ElectronFiddle editing = Some {| app := Some {| getEditorValues := Ok edited |} |}
  /\ templateCache initial !! "master" = None
  /\ readFiddle editing static_dir = Ok quick_start
  /\ (isContentUnchanged templates_dir static_dir join editing "main.js" initial).1
     = Ok (bool_decide (edited !! "main.js" = quick_start !! "main.js")).
Proof.
  split; [reflexivity | split; [reflexivity | split; [reflexivity |]]].
  destruct (isContentUnchanged_compares_with_master templates_dir static_dir join
              editing "main.js" initial _ _ edited eq_refl eq_refl eq_refl)
    as (_ & Hmiss & _).
  exact (Hmiss quick_start eq_refl eq_refl).
Defined.

Example edited_file_is_changed :
  (isContentUnchanged templates_dir static_dir join editing "main.js" initial).1 = Ok false
  /\ (isContentUnchanged templates_dir static_dir join editing "index.html" initial).1
     = Ok true.
Proof. split; reflexivity. Qed.

End Content_more.

(** ** Further facts about the command-line module *)

Module CommandLine_more.

Import CommandLine CommandLine_facts.

#[local] Arguments String.append !_ _ / : simpl nomatch.

Ltac elem_cases H :=
  repeat match type of H with
    | _ ∈ [] => by apply elem_of_nil in H
    | _ ∈ _ :: _ => apply elem_of_cons in H; destruct H as [H | H]; [try discriminate H |]
    end.

(** *** The channel options *)

(** X9. Whatever the options, every channel list [optShow] or [optHide]
    sends is not empty and names only the beta and nightly channels, and
    the two never name the same channel in one invocation. *)
Theorem channels_never_both opts :
  (forall shown,
      ipc_send (SHOW_CHANNELS shown) ∈ optShow opts ->
      shown <> [] /\ forall c, c ∈ shown -> c = beta \/ c = nightly)
  /\ (forall hidden,
        ipc_send (HIDE_CHANNELS hidden) ∈ optHide opts ->
        hidden <> [] /\ forall c, c ∈ hidden -> c = beta \/ c = nightly)
  /\ (forall shown hidden,
        ipc_send (SHOW_CHANNELS shown) ∈ optShow opts ->
        ipc_send (HIDE_CHANNELS hidden) ∈ optHide opts ->
        forall c, c ∈ shown -> c ∉ hidden)
  /\ (forall e, e ∈ optShow opts ->
                 (exists shown, e = console_log (Showing shown))
                 \/ (exists shown, e = ipc_send (SHOW_CHANNELS shown)))
  /\ (forall e, e ∈ optHide opts ->
                 (exists hidden, e = console_log (Hiding hidden))
                 \/ (exists hidden, e = ipc_send (HIDE_CHANNELS hidden))).
Proof.
  destruct opts as [[[] |] [[] |] f ver]; unfold optShow, optHide; simpl;
    (split; [| split; [| split; [| split]]]).
  all: try (intros l H; elem_cases H; injection H as ->;
            split; [done |]; intros c Hc; elem_cases Hc; auto).
  all: try (intros l l' H H'; elem_cases H; elem_cases H';
            injection H as ->; injection H' as ->;
            intros c Hc Hc'; elem_cases Hc; elem_cases Hc'; congruence).
  all: intros e H; elem_cases H; subst e; eauto.
Qed.

Lemma channels_never_both_witness :
  ipc_send (SHOW_CHANNELS [beta]) ∈ optShow beta_and_no_nightly
  /\ ipc_send (HIDE_CHANNELS [nightly]) ∈ optHide beta_and_no_nightly
  /\ (forall c, c ∈ [beta] -> c ∉ [nightly]).
Proof.
  assert (Hs : ipc_send (SHOW_CHANNELS [beta]) ∈ optShow beta_and_no_nightly)
    by (apply list_elem_of_further, list_elem_of_here).
  assert (Hh : ipc_send (HIDE_CHANNELS [nightly]) ∈ optHide beta_and_no_nightly)
    by (apply list_elem_of_further, list_elem_of_here).
  split; [exact Hs | split; [exact Hh |]].
  exact (proj1 (proj2 (proj2 (channels_never_both beta_and_no_nightly))) _ _ Hs Hh).
Defined.

(** *** [bisect] *)

(** X10. When a normalized version does not parse, [bisect] throws after
    the option messages and the open-fiddle message have been sent, and
    before any listener is registered or any bisect request is sent. *)
Theorem bisect_rejects_invalid normalizeVersion good bad opts :
  semver.SemVer_new (normalizeVersion good) = None
  \/ semver.SemVer_new (normalizeVersion bad) = None ->
  (exists err, (bisect normalizeVersion good bad opts).2 = Throw err)
  /\ (bisect normalizeVersion good bad opts).1
     = optHide opts ++ optShow opts ++ optFiddle opts
  /\ ipc_send (FS_OPEN_FIDDLE [fiddle opts]) ∈ (bisect normalizeVersion good bad opts).1
  /\ forallb (fun e => negb (starts_bisect e)) (bisect normalizeVersion good bad opts).1
     = true.
Proof.
  intros Hbad.
  assert (Hcmp : semver.compare (normalizeVersion good) (normalizeVersion bad) = None).
  { unfold semver.compare. destruct Hbad as [-> | ->]; [done |].
    by destruct (semver.SemVer_new (normalizeVersion good)). }
  unfold bisect. rewrite Hcmp. simpl.
  split; [by eexists | split; [done | split]].
  - apply elem_of_app; right. apply elem_of_app; right.
    apply list_elem_of_further, list_elem_of_here.
  - destruct opts as [[[] |] [[] |] f ver]; reflexivity.
Qed.

(** A version padded with a no-break space is trimmed by the constructor
    and compared: the bisect request is sent. *)
Example bisect_trims_no_break_space :
  semver.compare (no_break_space +:+ "10.0.0") "11.2.0" = Some (-1)%Z
  /\ last (bisect (fun v => v) (no_break_space +:+ "10.0.0") "11.2.0" no_options).1
     = Some (ipc_send (FIDDLE_BISECT (no_break_space +:+ "10.0.0") "11.2.0")).
Proof. split; reflexivity. Qed.

Lemma bisect_rejects_invalid_witness :
  (semver.SemVer_new (drop_v "latest") = None
   \/ semver.SemVer_new (drop_v "11.2.0") = None)
  /\ (bisect drop_v "latest" "11.2.0" no_options).1
     = optHide no_options ++ optShow no_options ++ optFiddle no_options.
Proof.
  assert (H : semver.SemVer_new (drop_v "latest") = None
              \/ semver.SemVer_new (drop_v "11.2.0") = None)
    by (left; reflexivity).
  split; [exact H |].
  exact (proj1 (proj2 (bisect_rejects_invalid drop_v "latest" "11.2.0" no_options H))).
Defined.

(** X11. When both normalized versions parse, the process exits on the
    arrival of [bisect-done], with code 0 exactly when the result has both
    a good and a bad version that are not empty, and with code 1
    otherwise. *)
Theorem bisect_exit_code normalizeVersion good bad opts g b result :
  semver.SemVer_new (normalizeVersion good) = Some g ->
  semver.SemVer_new (normalizeVersion bad) = Some b ->
  exitCode (after_bisect normalizeVersion good bad opts result)
  = Some (if (truthy (goodVersion result) && truthy (badVersion result))%bool
          then 0 else 1)%Z
  /\ (exitCode (after_bisect normalizeVersion good bad opts result) = Some 0%Z
      <-> exists gv bv,
          goodVersion result = Some gv /\ badVersion result = Some bv
          /\ gv <> EmptyString /\ bv <> EmptyString).
Proof.
  intros Hg Hb.
  assert (Hcode : exitCode (after_bisect normalizeVersion good bad opts result)
                  = Some (if (truthy (goodVersion result) && truthy (badVersion result))%bool
                          then 0 else 1)%Z).
  { unfold after_bisect, bisect, semver.compare. rewrite Hg, Hb.
    destruct (0 <? semver.compare_semver g b)%Z;
      destruct opts as [[[] |] [[] |] f ver]; reflexivity. }
  split; [exact Hcode |]. rewrite Hcode.
  destruct result as [[[| c gv] |] [[| d bv] |]]; simpl; split;
    try discriminate; try done;
    try (intros (gv' & bv' & Hgv & Hbv & Hne1 & Hne2); congruence).
  intros _. by exists (String c gv), (String d bv).
Qed.

Lemma bisect_exit_code_witness :
  semver.SemVer_new (drop_v "10.0.0") = Some (semver.mkSemVer "10.0.0" 10 0 0 [] [])
  /\ semver.SemVer_new (drop_v "11.2.0") = Some (semver.mkSemVer "11.2.0" 11 2 0 [] [])
  /\ exitCode (after_bisect drop_v "10.0.0" "11.2.0" no_options
                 {| goodVersion := Some "10.3.1"; badVersion := None |})
     = Some 1%Z.
Proof.
  split; [reflexivity | split; [reflexivity |]].
  exact (proj1 (bisect_exit_code drop_v "10.0.0" "11.2.0" no_options _ _
                  {| goodVersion := Some "10.3.1"; badVersion := None |}
                  eq_refl eq_refl)).
Defined.

(** X12. The order of the two arguments of [bisect] does not matter when
    they compare different: both orders send the same bisect request after
    the same option messages, and exactly one of them prints the warning. *)
Theorem bisect_order_independent normalizeVersion good bad opts g b :
  semver.SemVer_new (normalizeVersion good) = Some g ->
  semver.SemVer_new (normalizeVersion bad) = Some b ->
  semver.compare_semver g b <> 0%Z ->
  exists first second,
    let before := optHide opts ++ optShow opts ++ optFiddle opts in
    let warned := [console_warn (Swapping first second)] in
    let request := [ipc_on OUTPUT_ENTRY onOutputEntry;
                    ipc_once BISECT_DONE bisect_listener;
                    ipc_send (FIDDLE_BISECT first second)] in
    ((bisect normalizeVersion good bad opts).1 = before ++ warned ++ request
     /\ (bisect normalizeVersion bad good opts).1 = before ++ [] ++ request)
    \/ ((bisect normalizeVersion good bad opts).1 = before ++ [] ++ request
        /\ (bisect normalizeVersion bad good opts).1 = before ++ warned ++ request).
Proof.
  intros Hg Hb Hne.
  pose proof (semver_facts.compare_semver_opp g b) as Hopp.
  unfold bisect, semver.compare. rewrite Hg, Hb.
  destruct (Z.ltb_spec 0 (semver.compare_semver g b)) as [Hgt | Hle];
    destruct (Z.ltb_spec 0 (semver.compare_semver b g)) as [Hgt' | Hle'];
    try lia.
  - exists (normalizeVersion bad), (normalizeVersion good). by left.
  - exists (normalizeVersion good), (normalizeVersion bad). by right.
Qed.

Lemma bisect_order_independent_witness :
  semver.SemVer_new (drop_v "11.2.0") = Some (semver.mkSemVer "11.2.0" 11 2 0 [] [])
  /\ semver.SemVer_new (drop_v "10.0.0") = Some (semver.mkSemVer "10.0.0" 10 0 0 [] [])
  /\ semver.compare_semver (semver.mkSemVer "11.2.0" 11 2 0 [] [])
       (semver.mkSemVer "10.0.0" 10 0 0 [] []) <> 0%Z
  /\ exists first second,
      last (bisect drop_v "11.2.0" "10.0.0" no_options).1
      = Some (ipc_send (FIDDLE_BISECT first second))
      /\ last (bisect drop_v "10.0.0" "11.2.0" no_options).1
         = Some (ipc_send (FIDDLE_BISECT first second)).
Proof.
  assert (Hne : semver.compare_semver (semver.mkSemVer "11.2.0" 11 2 0 [] [])
                  (semver.mkSemVer "10.0.0" 10 0 0 [] []) <> 0%Z) by (vm_compute; discriminate).
  split; [reflexivity | split; [reflexivity | split; [exact Hne |]]].
  destruct (bisect_order_independent drop_v "11.2.0" "10.0.0" no_options _ _
              eq_refl eq_refl Hne) as (first & second & [[H1 H2] | [H1 H2]]);
    exists first, second; rewrite H1, H2; split; reflexivity.
Defined.

(** *** Output while a test runs *)

Lemma test_started opts :
  perform_all started (test opts)
  = {| listeners := [(OUTPUT_ENTRY, false, onOutputEntry); (RUN_DONE, true, test_listener)];
       performed := test opts;
       exitCode := None |}.
Proof.
  unfold test, optFiddle, optVersion.
  by destruct (opt_version opts) as [[| c v] |].
Qed.

Lemma deliver_all_output done ms :
  deliver_all
    {| listeners := [(OUTPUT_ENTRY, false, onOutputEntry); (RUN_DONE, true, test_listener)];
       performed := done;
       exitCode := None |}
    (output_entry <$> ms)
  = {| listeners := [(OUTPUT_ENTRY, false, onOutputEntry); (RUN_DONE, true, test_listener)];
       performed := done ++ ((fun m => console_log (Output m)) <$> ms);
       exitCode := None |}.
Proof.
  revert done. induction ms as [| m ms IH]; intros done.
  - simpl. by rewrite app_nil_r.
  - rewrite !fmap_cons. unfold deliver_all in *. simpl fold_left.
    change (deliver _ (output_entry m))
      with {| listeners := [(OUTPUT_ENTRY, false, onOutputEntry);
                            (RUN_DONE, true, test_listener)];
              performed := done ++ [console_log (Output m)];
              exitCode := None |}.
    rewrite IH. by rewrite <- app_assoc.
Qed.

(** X13. After [test], every output entry that arrives is printed, in order,
    the listener stays registered and the process keeps running; the exit
    code set when [run-done] arrives afterwards is the same as without any
    output. *)
Theorem test_streams_output opts ms result :
  let running := deliver_all (perform_all started (test opts)) (output_entry <$> ms) in
  performed running = test opts ++ ((fun m => console_log (Output m)) <$> ms)
  /\ listeners running = listeners (perform_all started (test opts))
  /\ exitCode running = None
  /\ exitCode (deliver running (run_done result))
     = Some (if bool_decide (result = SUCCESS) then 0 else 1)%Z.
Proof.
  intros running. subst running.
  rewrite test_started, deliver_all_output. simpl.
  split; [done | split; [done | split; [done |]]].
  reflexivity.
Qed.

(** *** [open] never exits *)

Lemma perform_all_prints es : forall p,
  exitCode p = None ->
  forallb is_console_log es = true ->
  exitCode (perform_all p es) = None /\ listeners (perform_all p es) = listeners p.
Proof.
  induction es as [| e es IH]; intros p Hp Hes; [done |].
  simpl in Hes. apply andb_true_iff in Hes as [He Hes].
  destruct e as [l | | | | |]; try discriminate He.
  assert (Hq : exitCode (perform p (console_log l)) = None
               /\ listeners (perform p (console_log l)) = listeners p)
    by (unfold perform; by rewrite Hp).
  destruct Hq as [Hexit Hkept].
  destruct (IH (perform p (console_log l)) Hexit Hes) as [H1 H2].
  split; [exact H1 |]. unfold perform_all in *. simpl fold_left. by rewrite H2.
Qed.

Lemma fired_prints m (called : list (IpcEvent * bool * Listener)) :
  Forall (fun r => only_prints r.2) called ->
  forallb is_console_log (List.flat_map (fun r => fire r.2 m) called) = true.
Proof.
  induction 1 as [| r called Hr Hcalled IH]; [done |].
  simpl. rewrite forallb_app, IH, (Hr m). done.
Qed.

Lemma Forall_filter_keep {A} (P : A -> Prop) (f : A -> bool) l :
  Forall P l -> Forall P (List.filter f l).
Proof.
  induction 1 as [| x l Hx Hl IH]; simpl; [constructor |].
  destruct (f x); [by constructor | done].
Qed.

Lemma deliver_prints p m :
  exitCode p = None ->
  Forall (fun r => only_prints r.2) (listeners p) ->
  exitCode (deliver p m) = None
  /\ Forall (fun r => only_prints r.2) (listeners (deliver p m)).
Proof.
  intros Hp Hl. unfold deliver. rewrite Hp.
  match goal with
  | |- context [perform_all ?q ?es] =>
      destruct (perform_all_prints es q eq_refl) as [Hexit Hkept]
  end.
  { apply fired_prints. by apply Forall_filter_keep. }
  split; [exact Hexit |]. rewrite Hkept. simpl. by apply Forall_filter_keep.
Qed.

Lemma logWhenDone_only_prints name : only_prints (logWhenDone_listener name false).
Proof. intros [m | r | [] | r]; reflexivity. Qed.

Lemma open_started existsSync source :
  exitCode (perform_all started (open existsSync source)) = None
  /\ Forall (fun r => only_prints r.2)
       (listeners (perform_all started (open existsSync source))).
Proof.
  unfold open. destruct (existsSync source).
  - simpl. split; [done |]. repeat constructor. apply logWhenDone_only_prints.
  - destruct (gist_candidate source) as [id |]; [| by split; [| constructor]].
    destruct (truthy (Some id) && matches_hex32 id)%bool;
      [| by split; [| constructor]].
    simpl. split; [done |]. repeat constructor. apply logWhenDone_only_prints.
Qed.

(** X14. [open] never ends the process: whatever its argument and whatever
    messages arrive afterwards, in any number and order, no exit code is
    set. *)
Theorem open_never_exits existsSync source ms :
  exitCode (deliver_all (perform_all started (open existsSync source)) ms) = None.
Proof.
  destruct (open_started existsSync source) as [Hexit Hprints].
  revert Hexit Hprints.
  generalize (perform_all started (open existsSync source)) as p.
  induction ms as [| m ms IH]; intros p Hexit Hprints; [done |].
  unfold deliver_all in *. simpl fold_left.
  destruct (deliver_prints p m Hexit Hprints) as [Hexit' Hprints'].
  by apply IH.
Qed.

(** *** The forms of a gist address *)

Lemma startsWith_append p s : Str.startsWith p (p +:+ s) = true.
Proof. induction p as [| c p IH]; simpl; [done | by rewrite Ascii.eqb_refl]. Qed.

Lemma last_cons c s : s <> EmptyString -> Str.last (String c s) = Str.last s.
Proof. by destruct s. Qed.

Lemma append_nonempty s t : t <> EmptyString -> s +:+ t <> EmptyString.
Proof. by destruct s. Qed.

Lemma last_append s t : t <> EmptyString -> Str.last (s +:+ t) = Str.last t.
Proof.
  intros Ht. induction s as [| c s IH]; [done |].
  change (String c s +:+ t) with (String c (s +:+ t)).
  rewrite last_cons by by apply append_nonempty. exact IH.
Qed.

Lemma dropLast_append s c : Str.dropLast (s +:+ String c EmptyString) = s.
Proof.
  induction s as [| d s IH]; [done |].
  change (String d s +:+ String c EmptyString)
    with (String d (s +:+ String c EmptyString)).
  destruct (s +:+ String c EmptyString) as [| e rest] eqn:E.
  - by destruct s.
  - change (Str.dropLast (String d (String e rest)))
      with (String d (Str.dropLast (String e rest))).
    by rewrite IH.
Qed.

Lemma split_no_sep_single sep s : no_sep sep s -> Str.split sep s = [s].
Proof.
  unfold no_sep. induction s as [| c s IH]; [done |].
  simpl. intros H. apply andb_true_iff in H as [Hc Hs].
  apply negb_true_iff in Hc. rewrite Hc, (IH Hs). done.
Qed.

Lemma pop_skip {A} (a b : A) l : Str.pop (a :: b :: l) = Str.pop (b :: l).
Proof. reflexivity. Qed.

(** the text after the last separator *)
Lemma pop_split_append sep seg : forall pre,
  no_sep sep seg ->
  exists w w' ws,
    Str.split sep (pre +:+ String sep seg) = w :: w' :: ws
    /\ Str.pop (w :: w' :: ws) = Some seg.
Proof.
  intros pre Hseg. induction pre as [| c pre (w & w' & ws & Heq & Hpop)].
  - exists EmptyString, seg, []. simpl.
    rewrite Ascii.eqb_refl, (split_no_sep_single _ _ Hseg). done.
  - change (String c pre +:+ String sep seg) with (String c (pre +:+ String sep seg)).
    simpl. rewrite Heq. destruct (Ascii.eqb c sep).
    + exists EmptyString, w, (w' :: ws). split; [done |]. by rewrite pop_skip.
    + exists (String c w), w', ws. split; [done |].
      rewrite pop_skip. by rewrite pop_skip in Hpop.
Qed.

Lemma hex_not_slash c : Str.is_hex c = true -> Ascii.eqb c "/" = false.
Proof. destruct c as [[] [] [] [] [] [] [] []]; done. Qed.

Lemma hex_not_h c : Str.is_hex c = true -> Ascii.eqb "h" c = false.
Proof. destruct c as [[] [] [] [] [] [] [] []]; done. Qed.

Lemma hex_no_sep s : Str.all Str.is_hex s = true -> no_sep "/" s.
Proof.
  unfold no_sep. induction s as [| c s IH]; [done |].
  simpl. intros H. apply andb_true_iff in H as [Hc Hs].
  by rewrite (hex_not_slash c Hc), IH.
Qed.

Lemma hex_last s :
  Str.all Str.is_hex s = true -> s <> EmptyString ->
  exists c, Str.last s = Some c /\ Str.is_hex c = true.
Proof.
  induction s as [| c s IH]; [done |].
  simpl. intros H _. apply andb_true_iff in H as [Hc Hs].
  destruct s as [| d s]; [by exists c |].
  destruct (IH Hs) as (x & Hx & Hhex); [done |]. by exists x.
Qed.

Lemma gist_id_facts id :
  is_gist_id id ->
  id <> EmptyString /\ no_sep "/" id
  /\ Str.endsWithChar "/" id = false
  /\ Str.startsWith gist_address id = false
  /\ matches_hex32 id = true.
Proof.
  intros [Hlen Hhex].
  assert (Hne : id <> EmptyString) by (by destruct id).
  split; [done | split; [by apply hex_no_sep | split; [| split]]].
  - unfold Str.endsWithChar. destruct (hex_last id Hhex Hne) as (c & -> & Hc).
    rewrite Ascii.eqb_sym. by apply hex_not_slash.
  - destruct id as [| c id]; [done |]. simpl in Hhex.
    apply andb_true_iff in Hhex as [Hc _].
    change (Str.startsWith gist_address (String c id))
      with (Ascii.eqb "h" c && Str.startsWith "ttps://gist.github.com" id)%bool.
    by rewrite (hex_not_h c Hc).
  - by apply matches_hex32_iff, is_gist_id_contains.
Qed.

Lemma gist_candidate_address path id :
  is_gist_id id ->
  gist_candidate (gist_address +:+ path +:+ "/" +:+ id) = Some id
  /\ gist_candidate (gist_address +:+ path +:+ "/" +:+ id +:+ "/") = Some id.
Proof.
  intros Hid. destruct (gist_id_facts id Hid) as (Hne & Hsep & Hend & _).
  assert (Hpop : Str.pop (Str.split "/" (gist_address +:+ path +:+ "/" +:+ id)) = Some id).
  { change ("/" +:+ id) with (String "/" id). rewrite <- append_assoc.
    destruct (pop_split_append "/" id (gist_address +:+ path) Hsep)
      as (w & w' & ws & -> & Hpop). exact Hpop. }
  unfold gist_candidate. rewrite !startsWith_append. split.
  - assert (Hlast : Str.endsWithChar "/" (gist_address +:+ path +:+ "/" +:+ id) = false).
    { unfold Str.endsWithChar in *. rewrite <- !append_assoc.
      by rewrite last_append. }
    by rewrite Hlast.
  - assert (Heq : gist_address +:+ path +:+ "/" +:+ id +:+ "/"
                  = (gist_address +:+ path +:+ "/" +:+ id) +:+ "/")
      by (by rewrite !append_assoc).
    rewrite Heq.
    assert (Hlast : Str.endsWithChar "/" ((gist_address +:+ path +:+ "/" +:+ id) +:+ "/")
                    = true).
    { unfold Str.endsWithChar. by rewrite last_append. }
    rewrite Hlast, dropLast_append. exact Hpop.
Qed.

(** X15. For every 32-character hexadecimal id, the bare id and every
    address made of the gist host, any path, a slash and the id, with or
    without one trailing slash, open the same gist: the listener is
    registered under the id and the request carries the id. *)
Theorem open_gist_url_variants existsSync id path source :
  is_gist_id id ->
  source = id
  \/ source = gist_address +:+ path +:+ "/" +:+ id
  \/ source = gist_address +:+ path +:+ "/" +:+ id +:+ "/" ->
  existsSync source = false ->
  open existsSync source
  = [ipc_once COMMAND_DONE (logWhenDone_listener (open_gist id) false);
     gist_request id].
Proof.
  intros Hid Hsource Hno.
  destruct (gist_id_facts id Hid) as (_ & _ & _ & Hstart & Hmatch).
  destruct (gist_candidate_address path id Hid) as [Hplain Hslash].
  assert (Hcandidate : gist_candidate source = Some id).
  { destruct Hsource as [-> | [-> | ->]]; [| done | done].
    unfold gist_candidate. unfold gist_address in Hstart. by rewrite Hstart. }
  rewrite (open_gist_cases _ _ _ Hno Hcandidate). by rewrite Hmatch.
Qed.

Lemma open_gist_url_variants_witness :
  is_gist_id "af3e1a018f5dcce4a2ff40004ef5bab5"
  /\ (fun _ : string => false)
       (gist_address +:+ "/ckerr" +:+ "/" +:+ "af3e1a018f5dcce4a2ff40004ef5bab5" +:+ "/")
     = false
  /\ open (fun _ => false)
       (gist_address +:+ "/ckerr" +:+ "/" +:+ "af3e1a018f5dcce4a2ff40004ef5bab5" +:+ "/")
     = [ipc_once COMMAND_DONE
          (logWhenDone_listener (open_gist "af3e1a018f5dcce4a2ff40004ef5bab5") false);
        gist_request "af3e1a018f5dcce4a2ff40004ef5bab5"].
Proof.
  assert (Hid : is_gist_id "af3e1a018f5dcce4a2ff40004ef5bab5") by (split; reflexivity).
  split; [exact Hid | split; [reflexivity |]].
  apply (open_gist_url_variants (fun _ => false) "af3e1a018f5dcce4a2ff40004ef5bab5"
           "/ckerr" _ Hid); [| reflexivity].
  right; right; reflexivity.
Defined.

(** X16. Only one trailing slash is removed: an address on the gist host
    that ends with two slashes, and is not an existing path, is ignored
    whatever comes before them. *)
Theorem open_gist_double_slash existsSync path source :
  source = gist_address +:+ path +:+ "//" ->
  existsSync source = false ->
  open existsSync source = [].
Proof.
  intros -> Hno.
  assert (Heq : gist_address +:+ path +:+ "//"
                = ((gist_address +:+ path) +:+ "/") +:+ "/").
  { rewrite !append_assoc. done. }
  assert (Hcandidate : gist_candidate (gist_address +:+ path +:+ "//")
                       = Some EmptyString).
  { unfold gist_candidate. rewrite startsWith_append, Heq.
    assert (Hlast : Str.endsWithChar "/" (((gist_address +:+ path) +:+ "/") +:+ "/") = true)
      by (unfold Str.endsWithChar; by rewrite last_append).
    rewrite Hlast, dropLast_append.
    destruct (pop_split_append "/" EmptyString (gist_address +:+ path) eq_refl)
      as (w & w' & ws & -> & Hpop). exact Hpop. }
  by rewrite (open_gist_cases _ _ _ Hno Hcandidate).
Qed.

Lemma open_gist_double_slash_witness :
  gist_address +:+ "/af3e1a018f5dcce4a2ff40004ef5bab5" +:+ "//"
  = gist_address +:+ "/af3e1a018f5dcce4a2ff40004ef5bab5" +:+ "//"
  /\ open (fun _ => false) (gist_address +:+ "/af3e1a018f5dcce4a2ff40004ef5bab5" +:+ "//")
     = [].
Proof.
  split; [reflexivity |].
  exact (open_gist_double_slash (fun _ => false) "/af3e1a018f5dcce4a2ff40004ef5bab5" _
           eq_refl eq_refl).
Defined.

End CommandLine_more.
